(** * Reconciliation of an application's connections (resource_application_connections.go)

    A shallow embedding of [applyConnectionState] and of the helpers it calls
    ([getConnectionClients], [updateConnectionClients], [stringSlicesEqual],
    [sort.Strings]) over an explicit model of the tenant behind the Auth0
    Management API, followed by the properties of the reconciliation loop. *)

From Stdlib Require Import ZArith.
From stdpp Require Import base decidable option list sorting strings gmap pretty.

Local Open Scope string_scope.
Local Open Scope Z_scope.
Local Open Scope list_scope.
#[local] Set Warnings "-clear-no-such-hyp".

(** ** Go values

    A Go [string] is a sequence of bytes, here [string]; a [[]string] is a
    [list string], the nil slice being [[]] (the code only ever takes [len],
    ranges over and appends to its slices, for which nil and empty agree;
    a nil [newClients] is marshalled as [null], which the tenant below takes
    for the empty list).
    An [error] is represented by the text its [Error()] method returns, and
    [fmt.Errorf] with [%s]/[%w] verbs by concatenation. *)

Definition error := string.

(** [sort.Strings(x)]: sorts [x] in place, ascending for Go's [<] on strings,
    which compares byte by byte ([String.le] is that order).  The order is
    total and antisymmetric, so the outcome does not depend on the sorting
    algorithm (see [sort_Strings_unique]); it is computed here by merging. *)
Definition sort_Strings (x : list string) : list string :=
  merge_sort String.le x.

(** [stringSlicesEqual(a, b)]: the length test, then the loop over the
    indices of [a] that returns false at the first difference. *)
Definition stringSlicesEqual (a b : list string) : bool :=
  if negb (length a =? length b)%nat then false
  else forallb (λ i, negb (bool_decide (a !!! i ≠ b !!! i))) (seq 0 (length a)).

(** ** The tenant and the HTTP exchanges *)

(** The two requests the reconciliation sends:
    [GET /api/v2/connections/{id}] and
    [PATCH /api/v2/connections/{id}] with body [{"enabled_clients": [...]}]. *)
Inductive request :=
| GET (connectionId : string)
| PATCH (connectionId : string) (enabled_clients : list string).

Global Instance request_eq_dec : EqDecision request.
Proof. solve_decision. Defined.

(** What a call site sees of one exchange: [http.NewRequestWithContext]
    failed, [HTTPClient.Do] failed, or a response came back.  [B] is the body
    as that call site reads it. *)
Inductive outcome (B : Type) :=
| NewRequestErr (err : error)
| DoErr (err : error)
| Resp (StatusCode : Z) (Body : B).
Global Arguments NewRequestErr {B} err.
Global Arguments DoErr {B} err.
Global Arguments Resp {B} StatusCode Body.

(** Ways a tenant can be made to misbehave on the read of one connection. *)
Inductive read_fault :=
| ReadDoFails (err : error)
| ReadStatus (code : Z)          (* answers with this status, e.g. 403, 429, 500 *)
| ReadGarbled (err : error).     (* 200 with a body the JSON decoder rejects with [err] *)

(** ... and on the write of one connection. *)
Inductive write_fault :=
| WriteDoFails (err : error)
| WriteStatus (code : Z) (body : string).  (* answers with this status and raw body, nothing stored *)

(** The tenant: the [enabled_clients] list of each connection it holds, how
    it misbehaves per connection, and the requests handed to [HTTPClient.Do]
    so far, oldest first.  [url_error] is the error, if any, that
    [http.NewRequestWithContext] returns for the URL of a connection: the
    read and the write of a connection build the same URL from its ID, so
    they fail there together, and then nothing is handed to the client. *)
Record Tenant := {
  connections : gmap string (list string);
  url_error : string → option error;
  get_fault : string → option read_fault;
  patch_fault : string → option write_fault;
  trace : list request
}.

Definition http_StatusOK : Z := 200.
Definition http_StatusNotFound : Z := 404.

(** Raw body of the tenant's answer to a PATCH of a connection it does not hold. *)
Definition not_found_body : string := "Not Found".

(** The tenant's side of [GET /api/v2/connections/{id}]; the body is what
    decoding it into [struct { EnabledClients []string }] yields.  The body of
    an answer other than 200 is an error document without [enabled_clients]. *)
Definition get_outcome (t : Tenant) (c : string) : outcome (error + list string) :=
  let serve :=
    match connections t !! c with
    | Some clients => Resp http_StatusOK (inr clients)
    | None => Resp http_StatusNotFound (inr [])
    end in
  match url_error t c with
  | Some err => NewRequestErr err
  | None =>
      match get_fault t c with
      | None => serve
      | Some (ReadDoFails err) => DoErr err
      | Some (ReadStatus code) =>
          if code =? http_StatusOK then serve else Resp code (inr [])
      | Some (ReadGarbled err) => Resp http_StatusOK (inl err)
      end
  end.

(** The tenant's side of [PATCH /api/v2/connections/{id}]: the outcome (the
    body is the raw text [io.ReadAll] returns) and the connections afterwards.
    A 200 replaces the whole list by the one sent; anything else stores nothing. *)
Definition patch_outcome (t : Tenant) (c : string) (clients : list string)
  : outcome string * gmap string (list string) :=
  let serve :=
    match connections t !! c with
    | Some _ => (Resp http_StatusOK EmptyString, <[c := clients]> (connections t))
    | None => (Resp http_StatusNotFound not_found_body, connections t)
    end in
  match url_error t c with
  | Some err => (NewRequestErr err, connections t)
  | None =>
      match patch_fault t c with
      | None => serve
      | Some (WriteDoFails err) => (DoErr err, connections t)
      | Some (WriteStatus code body) =>
          if code =? http_StatusOK then serve else (Resp code body, connections t)
      end
  end.

Definition exchange (r : request) (conns : gmap string (list string)) (t : Tenant) : Tenant :=
  {| connections := conns; url_error := url_error t; get_fault := get_fault t;
     patch_fault := patch_fault t; trace := trace t ++ [r] |}.

(** ** The helpers of the resource *)

(** [getConnectionClients]: returns [(clients, err)]. *)
Definition getConnectionClients (connectionId : string) (t : Tenant)
  : (list string * option error) * Tenant :=
  let t' := exchange (GET connectionId) (connections t) t in
  match get_outcome t connectionId with
  | NewRequestErr err =>
      (([], Some ("failed to create connection request: " +:+ err)), t)
  | DoErr err =>
      (([], Some ("failed to make connection request: " +:+ err)), t')
  | Resp StatusCode Body =>
      if negb (StatusCode =? http_StatusOK) then
        (([], None), t') (* Return empty if connection doesn't exist or no access *)
      else
        match Body with
        | inl err => (([], Some ("failed to decode connection response: " +:+ err)), t')
        | inr EnabledClients => ((EnabledClients, None), t')
        end
  end.

(** [updateConnectionClients]: returns [err].  [json.Marshal] of a map holding
    a [[]string] cannot fail, so that branch is not represented. *)
Definition updateConnectionClients (connectionId : string) (enabledClients : list string)
    (t : Tenant) : option error * Tenant :=
  let '(o, conns) := patch_outcome t connectionId enabledClients in
  let t' := exchange (PATCH connectionId enabledClients) conns t in
  match o with
  | NewRequestErr err => (Some ("failed to create update request: " +:+ err), t)
  | DoErr err => (Some ("failed to make update request: " +:+ err), t')
  | Resp StatusCode Body =>
      if negb (StatusCode =? http_StatusOK) then
        (Some ("update request failed with status " +:+ pretty StatusCode +:+ ": " +:+ Body), t')
      else (None, t')
  end.

(** ** applyConnectionState *)

(** [enabledSet := make(map[string]bool)] filled from [enabledConnectionIds]. *)
Definition make_enabledSet (enabledConnectionIds : list string) : gmap string bool :=
  foldl (λ enabledSet connId, <[connId := true]> enabledSet) ∅ enabledConnectionIds.

(** [enabledSet[connectionId]]: indexing a Go map with an absent key yields
    the zero value. *)
Definition index (enabledSet : gmap string bool) (connectionId : string) : bool :=
  default false (enabledSet !! connectionId).

(** The two appending steps that determine the new client list: every client
    except the application, then the application when it should be enabled. *)
Definition rebuild (applicationId : string) (enabled : bool) (currentClients : list string)
  : list string :=
  let newClients :=
    foldl (λ newClients clientId,
             if bool_decide (clientId ≠ applicationId)
             then newClients ++ [clientId] else newClients)
          [] currentClients in
  if enabled then newClients ++ [applicationId] else newClients.

(** How one iteration of the loop ends: it falls through (or [continue]s) to
    the next connection with the managed list so far, or it [return]s. *)
Inductive control :=
| Continue (managedConnections : list string)
| Return (managedConnections : list string) (err : error).

(** The body of [for _, connectionId := range allConnections].  Both calls of
    [sort.Strings] overwrite the slice they are given, so from then on
    [newClients] and [currentClients] denote the sorted slices. *)
Definition loop_body (applicationId : string) (enabledSet : gmap string bool)
    (connectionId : string) (managedConnections : list string) (t : Tenant)
  : control * Tenant :=
  let '((currentClients, err), t) := getConnectionClients connectionId t in
  match err with
  | Some _ => (Continue managedConnections, t) (* Skip if we can't access this connection *)
  | None =>
      let newClients := rebuild applicationId (index enabledSet connectionId) currentClients in
      let newClients := sort_Strings newClients in
      let currentClients := sort_Strings currentClients in
      if negb (stringSlicesEqual currentClients newClients) then
        let '(err, t) := updateConnectionClients connectionId newClients t in
        match err with
        | Some err =>
            (Return [] ("failed to update connection " +:+ connectionId +:+ ": " +:+ err), t)
        | None => (Continue (managedConnections ++ [connectionId]), t)
        end
      else (Continue managedConnections, t)
  end.

Fixpoint range_allConnections (applicationId : string) (enabledSet : gmap string bool)
    (allConnections : list string) (managedConnections : list string) (t : Tenant)
  : (list string * option error) * Tenant :=
  match allConnections with
  | [] => ((managedConnections, None), t)
  | connectionId :: rest =>
      match loop_body applicationId enabledSet connectionId managedConnections t with
      | (Continue managedConnections, t) =>
          range_allConnections applicationId enabledSet rest managedConnections t
      | (Return managedConnections err, t) => ((managedConnections, Some err), t)
      end
  end.

(** [applyConnectionState(ctx, accessToken, allConnections, applicationId,
    enabledConnectionIds)] returns [(managedConnections, err)]; the context
    and the token only travel into the requests. *)
Definition applyConnectionState (allConnections : list string) (applicationId : string)
    (enabledConnectionIds : list string) (t : Tenant)
  : (list string * option error) * Tenant :=
  range_allConnections applicationId (make_enabledSet enabledConnectionIds)
    allConnections [] t.

(** ** Observations on tenants and runs *)

Definition clients_of (t : Tenant) (c : string) : list string :=
  default [] (connections t !! c).

(** The read of [c] succeeds: status 200 and a body that decodes. *)
Definition reads_ok (t : Tenant) (c : string) : bool :=
  match get_outcome t c with
  | Resp code (inr _) => bool_decide (code = http_StatusOK)
  | _ => false
  end.

(** A write to [c] succeeds: status 200 (the outcome does not depend on the list sent). *)
Definition writes_ok (t : Tenant) (c : string) : bool :=
  match (patch_outcome t c []).1 with
  | Resp code _ => bool_decide (code = http_StatusOK)
  | _ => false
  end.

(** The requests sent since the trace had length [n]. *)
Definition since (n : nat) (t : Tenant) : list request := drop n (trace t).

(** A tenant without faults holding the given connections. *)
Definition tenant_of (conns : list (string * list string)) : Tenant :=
  {| connections := list_to_map conns; url_error := λ _, None; get_fault := λ _, None;
     patch_fault := λ _, None; trace := [] |}.

Definition with_get_fault (c : string) (f : read_fault) (t : Tenant) : Tenant :=
  {| connections := connections t; url_error := url_error t;
     get_fault := λ c', if bool_decide (c' = c) then Some f else get_fault t c';
     patch_fault := patch_fault t; trace := trace t |}.

Definition with_patch_fault (c : string) (f : write_fault) (t : Tenant) : Tenant :=
  {| connections := connections t; url_error := url_error t; get_fault := get_fault t;
     patch_fault := λ c', if bool_decide (c' = c) then Some f else patch_fault t c';
     trace := trace t |}.

Definition with_url_error (c : string) (err : error) (t : Tenant) : Tenant :=
  {| connections := connections t;
     url_error := λ c', if bool_decide (c' = c) then Some err else url_error t c';
     get_fault := get_fault t; patch_fault := patch_fault t; trace := trace t |}.

(** The connection a request is about. *)
Definition connection_of (r : request) : string :=
  match r with GET c => c | PATCH c _ => c end.

(** The shape of a request of the loop over [all]: it is about a listed
    connection, and a write carries some rebuilt list, sorted. *)
Definition sent_by_loop (app : string) (enabledSet : gmap string bool)
    (all : list string) (r : request) : Prop :=
  connection_of r ∈ all
  ∧ match r with
    | GET _ => True
    | PATCH c l => ∃ cur, l = sort_Strings (rebuild app (index enabledSet c) cur)
    end.

(** What [getConnectionClients] returns, and what [updateConnectionClients]
    returns, as functions of the tenant they talk to. *)
Definition read_of (t : Tenant) (c : string) : list string * option error :=
  (getConnectionClients c t).1.

Definition write_error (t : Tenant) (c : string) (l : list string) : option error :=
  (updateConnectionClients c l t).1.

(** Two tenants that differ at most in the lists they hold and in their trace. *)
Definition same_setup (t t' : Tenant) : Prop :=
  url_error t' = url_error t
  ∧ get_fault t' = get_fault t ∧ patch_fault t' = patch_fault t
  ∧ dom (connections t') = dom (connections t).

(** The tenant after [getConnectionClients]: the read is recorded unless its
    request could not be built. *)
Definition after_read (t : Tenant) (c : string) : Tenant :=
  match url_error t c with
  | Some _ => t
  | None => exchange (GET c) (connections t) t
  end.

(** ** One iteration of the loop, as a relation *)

(** The four ways an iteration for connection [c] goes, with [enabled] the
    value of [enabledSet[c]]: the read returned an error; nothing changed; a
    write was sent and accepted; a write was sent and failed. *)
Inductive iteration (app : string) (enabled : bool) (c : string) (m : list string)
    (t : Tenant) : control → Tenant → Prop :=
| iteration_skipped cur err :
    read_of t c = (cur, Some err) →
    iteration app enabled c m t (Continue m) (after_read t c)
| iteration_unchanged cur :
    read_of t c = (cur, None) →
    cur ≡ₚ rebuild app enabled cur →
    iteration app enabled c m t (Continue m) (exchange (GET c) (connections t) t)
| iteration_written cur :
    read_of t c = (cur, None) →
    ¬ cur ≡ₚ rebuild app enabled cur →
    writes_ok t c = true →
    iteration app enabled c m t (Continue (m ++ [c]))
      (exchange (PATCH c (sort_Strings (rebuild app enabled cur)))
         (<[c := sort_Strings (rebuild app enabled cur)]> (connections t))
         (exchange (GET c) (connections t) t))
| iteration_failed cur err :
    read_of t c = (cur, None) →
    ¬ cur ≡ₚ rebuild app enabled cur →
    write_error t c (sort_Strings (rebuild app enabled cur)) = Some err →
    iteration app enabled c m t
      (Return [] ("failed to update connection " +:+ c +:+ ": " +:+ err))
      (exchange (PATCH c (sort_Strings (rebuild app enabled cur)))
         (connections t) (exchange (GET c) (connections t) t)).

(** The application's membership in [l] already agrees with [enabled], so the
    rebuilt list is a rearrangement of [l]. *)
Definition settled (app : string) (enabled : bool) (l : list string) : Prop :=
  l ≡ₚ rebuild app enabled l.

(** ** Tenants used in the examples *)

(** The example of the specification: [c1] holds [app2], [c2] holds [app1]
    and [app2]; [app1] is reconciled with the desired set [{c1}]. *)
Definition example_tenant : Tenant :=
  tenant_of [("c1", ["app2"]); ("c2", ["app1"; "app2"])].

(** A tenant that answers the read of [c1] with 403 and would accept a write
    to it; it holds [app2] on [c1]. *)
Definition forbidden_tenant : Tenant :=
  with_get_fault "c1" (ReadStatus 403) (tenant_of [("c1", ["app2"])]).

(** A tenant on which the write to [c2] fails with status 500: [c1] holds
    [app2], [c2] and [c3] hold [app1]. *)
Definition failing_tenant : Tenant :=
  with_patch_fault "c2" (WriteStatus 500 "boom")
    (tenant_of [("c1", ["app2"]); ("c2", ["app1"]); ("c3", ["app1"])]).

(** ** The provider's client and the account-level endpoints *)

(** [Auth0Client]: what every data source and resource is configured with.
    Its [HTTPClient] is the endpoints of [Auth0] below. *)
Module Auth0Client.
Record t := {
  Domain : string;
  ClientId : string;
  ClientSecret : string
}.
End Auth0Client.

(** [Auth0Connection]: one element of the array [GET /api/v2/connections] returns. *)
Module Auth0Connection.
Record t := {
  Id : string;
  Name : string;
  Strategy : string;
  DisplayName : string;
  Enabled : bool
}.
End Auth0Connection.

(** A response body, by the two ways the code reads one: the text
    [io.ReadAll] returns and what [json.NewDecoder(...).Decode] yields. *)
Record body (A : Type) := {
  raw : string;
  decoded : error + A
}.
Global Arguments raw {A} _.
Global Arguments decoded {A} _.

(** The platform: the token endpoint (by URL and form body), the connection
    listing (by URL and bearer token), and the per-connection endpoints. *)
Record Auth0 := {
  oauth_token : string → string → outcome (body string);
  list_connections : string → string → outcome (body (list Auth0Connection.t));
  tenant : Tenant
}.

Definition with_tenant (t : Tenant) (a : Auth0) : Auth0 :=
  {| oauth_token := oauth_token a; list_connections := list_connections a; tenant := t |}.

(** The framework's [types.String] and [types.Bool]: null, unknown or known. *)
Inductive tf_String := StringNull | StringUnknown | StringValue (value : string).
Inductive tf_Bool := BoolNull | BoolUnknown | BoolValue (value : bool).

Definition IsNull (s : tf_String) : bool :=
  match s with StringNull => true | _ => false end.
Definition IsUnknown (s : tf_String) : bool :=
  match s with StringUnknown => true | _ => false end.
(** [ValueString()]: the known value, the empty string otherwise. *)
Definition ValueString (s : tf_String) : string :=
  match s with StringValue v => v | _ => EmptyString end.

(** A diagnostic added with [resp.Diagnostics.AddError(summary, detail)]. *)
Record Diagnostic := {
  Summary : string;
  Detail : string
}.

(** ** The resource (resource_application_connections.go) *)

Module ApplicationConnectionsResource.

(** [getAccessToken]: returns [(token, err)].  The form body is put together
    with [fmt.Sprintf], the values as they are. *)
Definition token_form (r : Auth0Client.t) : string :=
  "grant_type=client_credentials&client_id=" +:+ Auth0Client.ClientId r
  +:+ "&client_secret=" +:+ Auth0Client.ClientSecret r
  +:+ "&audience=https://" +:+ Auth0Client.Domain r +:+ "/api/v2/".

Definition getAccessToken (r : Auth0Client.t) (a : Auth0) : string * option error :=
  let tokenURL := "https://" +:+ Auth0Client.Domain r +:+ "/oauth/token" in
  let data := token_form r in
  match oauth_token a tokenURL data with
  | NewRequestErr err => (EmptyString, Some ("failed to create token request: " +:+ err))
  | DoErr err => (EmptyString, Some ("failed to make token request: " +:+ err))
  | Resp StatusCode Body =>
      if negb (StatusCode =? http_StatusOK) then
        (EmptyString,
         Some ("token request failed with status " +:+ pretty StatusCode +:+ ": " +:+ raw Body))
      else
        match decoded Body with
        | inl err => (EmptyString, Some ("failed to decode token response: " +:+ err))
        | inr AccessToken => (AccessToken, None)
        end
  end.

(** [fetchAllConnections]: returns [(connectionIds, err)]. *)
Definition fetchAllConnections (r : Auth0Client.t) (accessToken : string) (a : Auth0)
  : list string * option error :=
  let connectionsURL := "https://" +:+ Auth0Client.Domain r +:+ "/api/v2/connections" in
  match list_connections a connectionsURL accessToken with
  | NewRequestErr err => ([], Some ("failed to create connections request: " +:+ err))
  | DoErr err => ([], Some ("failed to make connections request: " +:+ err))
  | Resp StatusCode Body =>
      if negb (StatusCode =? http_StatusOK) then
        ([], Some ("connections request failed with status " +:+ pretty StatusCode
                   +:+ ": " +:+ raw Body))
      else
        match decoded Body with
        | inl err => ([], Some ("failed to decode connections response: " +:+ err))
        | inr connections =>
            (foldl (λ connectionIds conn, connectionIds ++ [Auth0Connection.Id conn]) [] connections, None)
        end
  end.

(** The inner loop of [getCurrentConnectionState]: the connection is appended
    at the first client equal to the application, and the loop [break]s. *)
Fixpoint range_clients (applicationId connectionId : string) (clients : list string)
    (enabledConnections : list string) : list string :=
  match clients with
  | [] => enabledConnections
  | clientId :: rest =>
      if bool_decide (clientId = applicationId)
      then enabledConnections ++ [connectionId]
      else range_clients applicationId connectionId rest enabledConnections
  end.

(** Its outer loop. *)
Fixpoint range_connections (applicationId : string) (connections : list string)
    (enabledConnections : list string) (t : Tenant) : list string * Tenant :=
  match connections with
  | [] => (enabledConnections, t)
  | connectionId :: rest =>
      let '((clients, err), t) := getConnectionClients connectionId t in
      match err with
      | Some _ => (* Skip if we can't get clients for this connection *)
          range_connections applicationId rest enabledConnections t
      | None =>
          range_connections applicationId rest
            (range_clients applicationId connectionId clients enabledConnections) t
      end
  end.

(** [getCurrentConnectionState]: returns [(enabledConnections, err)]. *)
Definition getCurrentConnectionState (r : Auth0Client.t) (accessToken applicationId : string)
    (a : Auth0) : (list string * option error) * Tenant :=
  match fetchAllConnections r accessToken a with
  | (_, Some err) => (([], Some err), tenant a)
  | (connections, None) =>
      let '(enabledConnections, t) := range_connections applicationId connections [] (tenant a) in
      ((enabledConnections, None), t)
  end.

(** [ApplicationConnectionsResourceModel], with the attributes the code reads
    already taken out of the framework's values: [ApplicationId.ValueString()]
    and the elements of [EnabledConnectionIds].  [ManagedConnectionIds] is
    the Go slice a method hands to [types.ListValueFrom] for that attribute:
    a slice is its list of elements, so that the nil slice and an empty one
    are both [[]], and the framework value built from it (a null list or a
    list without elements) is not told apart. *)
Record Model := {
  Id : tf_String;
  ApplicationId : string;
  EnabledConnectionIds : list string;
  ManagedConnectionIds : list string
}.

(** What a CRUD method leaves in its response: the error it added, or the
    model it passes to [State.Set].  The framework's own steps ([Plan.Get], [State.Get],
    [ElementsAs], [ListValueFrom], [State.Set]) are taken to add no error. *)
Inductive response :=
| Failed (d : Diagnostic)
| Saved (state : Model).

Definition AddError (summary : string) (err : error) : response :=
  Failed {| Summary := summary; Detail := "Error: " +:+ err |}.

Definition Create (r : Auth0Client.t) (data : Model) (a : Auth0) : response * Tenant :=
  match getAccessToken r a with
  | (_, Some err) => (AddError "Failed to get Auth0 access token" err, tenant a)
  | (accessToken, None) =>
      match fetchAllConnections r accessToken a with
      | (_, Some err) => (AddError "Failed to fetch Auth0 connections" err, tenant a)
      | (allConnections, None) =>
          let enabledConnectionIds := EnabledConnectionIds data in
          let '((managedConnections, err), t) :=
            applyConnectionState allConnections (ApplicationId data) enabledConnectionIds
              (tenant a) in
          match err with
          | Some err => (AddError "Failed to apply connection state" err, t)
          | None =>
              (Saved {| Id := StringValue (ApplicationId data);
                        ApplicationId := ApplicationId data;
                        EnabledConnectionIds := EnabledConnectionIds data;
                        ManagedConnectionIds := managedConnections |}, t)
          end
      end
  end.

Definition Update (r : Auth0Client.t) (data : Model) (a : Auth0) : response * Tenant :=
  match getAccessToken r a with
  | (_, Some err) => (AddError "Failed to get Auth0 access token" err, tenant a)
  | (accessToken, None) =>
      match fetchAllConnections r accessToken a with
      | (_, Some err) => (AddError "Failed to fetch Auth0 connections" err, tenant a)
      | (allConnections, None) =>
          let enabledConnectionIds := EnabledConnectionIds data in
          let '((managedConnections, err), t) :=
            applyConnectionState allConnections (ApplicationId data) enabledConnectionIds
              (tenant a) in
          match err with
          | Some err => (AddError "Failed to apply connection state" err, t)
          | None =>
              (Saved {| Id := Id data;
                        ApplicationId := ApplicationId data;
                        EnabledConnectionIds := EnabledConnectionIds data;
                        ManagedConnectionIds := managedConnections |}, t)
          end
      end
  end.

Definition Read (r : Auth0Client.t) (data : Model) (a : Auth0) : response * Tenant :=
  match getAccessToken r a with
  | (_, Some err) => (AddError "Failed to get Auth0 access token" err, tenant a)
  | (accessToken, None) =>
      let '((currentState, err), t) :=
        getCurrentConnectionState r accessToken (ApplicationId data) a in
      match err with
      | Some err => (AddError "Failed to get current connection state" err, t)
      | None =>
          (Saved {| Id := Id data;
                    ApplicationId := ApplicationId data;
                    EnabledConnectionIds := EnabledConnectionIds data;
                    ManagedConnectionIds := currentState |}, t)
      end
  end.

(** [Delete] saves no state: it returns the error it added, if any. *)
Definition Delete (r : Auth0Client.t) (data : Model) (a : Auth0)
  : option Diagnostic * Tenant :=
  match getAccessToken r a with
  | (_, Some err) =>
      (Some {| Summary := "Failed to get Auth0 access token"; Detail := "Error: " +:+ err |},
       tenant a)
  | (accessToken, None) =>
      match fetchAllConnections r accessToken a with
      | (_, Some err) =>
          (Some {| Summary := "Failed to fetch Auth0 connections"; Detail := "Error: " +:+ err |},
           tenant a)
      | (allConnections, None) =>
          let '((_, err), t) :=
            applyConnectionState allConnections (ApplicationId data) [] (tenant a) in
          match err with
          | Some err =>
              (Some {| Summary := "Failed to cleanup connection state";
                       Detail := "Error: " +:+ err |}, t)
          | None => (None, t)
          end
      end
  end.

End ApplicationConnectionsResource.

(** ** The data source (data_source_connections.go) *)

Module ConnectionsDataSource.

(** [ConnectionModel]: one connection as the data source publishes it. *)
Record ConnectionModel := {
  Id : tf_String;
  Name : tf_String;
  Strategy : tf_String;
  DisplayName : tf_String;
  Enabled : tf_Bool
}.

(** [fetchConnections]: returns [(connections, err)]. *)
Definition fetchConnections (d : Auth0Client.t) (accessToken : string) (a : Auth0)
  : list Auth0Connection.t * option error :=
  let connectionsURL := "https://" +:+ Auth0Client.Domain d +:+ "/api/v2/connections" in
  match list_connections a connectionsURL accessToken with
  | NewRequestErr err => ([], Some ("failed to create connections request: " +:+ err))
  | DoErr err => ([], Some ("failed to make connections request: " +:+ err))
  | Resp StatusCode Body =>
      if negb (StatusCode =? http_StatusOK) then
        ([], Some ("connections request failed with status " +:+ pretty StatusCode
                   +:+ ": " +:+ raw Body))
      else
        match decoded Body with
        | inl err => ([], Some ("failed to decode connections response: " +:+ err))
        | inr connections => (connections, None)
        end
  end.

(** The conversion loop of [Read]: the three values it builds from the
    fetched connections, [connectionModels], [connectionIds] and
    [connectionMap], the last one a Go map from names to IDs. *)
Definition convert (connections : list Auth0Connection.t)
  : list ConnectionModel * list string * gmap string string :=
  foldl (λ '(connectionModels, connectionIds, connectionMap) conn,
           (connectionModels ++ [ {| Id := StringValue (Auth0Connection.Id conn);
                                     Name := StringValue (Auth0Connection.Name conn);
                                     Strategy := StringValue (Auth0Connection.Strategy conn);
                                     DisplayName := StringValue (Auth0Connection.DisplayName conn);
                                     Enabled := BoolValue (Auth0Connection.Enabled conn) |} ],
            connectionIds ++ [Auth0Connection.Id conn],
            <[Auth0Connection.Name conn := Auth0Connection.Id conn]> connectionMap))
        ([], [], ∅) connections.

End ConnectionsDataSource.

(** ** The provider *)

Module Auth0ConnectionsProvider.

(** [Auth0ConnectionsProviderModel]: the provider block of the configuration. *)
Record Model := {
  Domain : tf_String;
  ClientId : tf_String;
  ClientSecret : tf_String
}.

(** [Configure]: [has_error] tells whether reading the configuration added an
    error; the result is the diagnostics added by [Configure] itself and the
    client set as [DataSourceData] and [ResourceData], if any. *)
Definition Configure (has_error : bool) (config : Model)
  : list Diagnostic * option Auth0Client.t :=
  if has_error then ([], None)
  else if IsUnknown (Domain config) || IsNull (Domain config) then
    ([ {| Summary := "Missing Auth0 Domain";
          Detail := "The provider cannot create the Auth0 API client as there is a missing or empty value for the Auth0 domain. "
                    +:+ "Set the domain value in the configuration and ensure the value is not empty." |} ],
     None)
  else if IsUnknown (ClientId config) || IsNull (ClientId config) then
    ([ {| Summary := "Missing Auth0 Client ID";
          Detail := "The provider cannot create the Auth0 API client as there is a missing or empty value for the Auth0 client ID. "
                    +:+ "Set the client_id value in the configuration and ensure the value is not empty." |} ],
     None)
  else if IsUnknown (ClientSecret config) || IsNull (ClientSecret config) then
    ([ {| Summary := "Missing Auth0 Client Secret";
          Detail := "The provider cannot create the Auth0 API client as there is a missing or empty value for the Auth0 client secret. "
                    +:+ "Set the client_secret value in the configuration and ensure the value is not empty." |} ],
     None)
  else
    ([], Some {| Auth0Client.Domain := ValueString (Domain config);
                 Auth0Client.ClientId := ValueString (ClientId config);
                 Auth0Client.ClientSecret := ValueString (ClientSecret config) |}).

End Auth0ConnectionsProvider.

(** ** Further observations *)

(** The connections read, and the connections written, by a run of requests. *)
Definition reads_in (evs : list request) : list string :=
  omap (λ r, match r with GET c => Some c | PATCH _ _ => None end) evs.

Definition writes_in (evs : list request) : list string :=
  omap (λ r, match r with PATCH c _ => Some c | GET _ => None end) evs.

(** The occurrences of the application in [l] are not what [enabled] asks
    for: one when enabled, none otherwise. *)
Definition out_of_line (app : string) (enabled : bool) (l : list string) : Prop :=
  filter (λ x, x = app) l ≠ (if enabled then [app] else []).

(** The requests a run over the listed connections can hand over: for each
    listed connection in turn, nothing when its request cannot be built,
    else its read, alone or followed at once by a write of that same
    connection; a run that stops before the end of the list does so right
    after a write. *)
Inductive follows_listing (t : Tenant) : list string → list request → Prop :=
| follows_end : follows_listing t [] []
| follows_unbuilt c all evs :
    url_error t c ≠ None →
    follows_listing t all evs → follows_listing t (c :: all) evs
| follows_read c all evs :
    url_error t c = None →
    follows_listing t all evs → follows_listing t (c :: all) (GET c :: evs)
| follows_read_write c l all evs :
    url_error t c = None →
    follows_listing t all evs → follows_listing t (c :: all) (GET c :: PATCH c l :: evs)
| follows_stop c l all :
    url_error t c = None →
    follows_listing t (c :: all) [GET c; PATCH c l].

(** A read of [c] returns no error and a list that holds the application. *)
Definition seen_enabled (app : string) (t : Tenant) (c : string) : bool :=
  match read_of t c with
  | (clients, None) => bool_decide (app ∈ clients)
  | (_, Some _) => false
  end.

(** ** Accounts used in the examples *)

Definition example_client : Auth0Client.t :=
  {| Auth0Client.Domain := "tenant.auth0.com";
     Auth0Client.ClientId := "id"; Auth0Client.ClientSecret := "secret" |}.

Definition database_connection (id name : string) : Auth0Connection.t :=
  {| Auth0Connection.Id := id; Auth0Connection.Name := name;
     Auth0Connection.Strategy := "auth0"; Auth0Connection.DisplayName := name;
     Auth0Connection.Enabled := true |}.

(** An account that hands out a token, lists [c1] and [c2], and holds the
    lists of [example_tenant]. *)
Definition example_account : Auth0 :=
  {| oauth_token := λ _ _, Resp 200 {| raw := EmptyString; decoded := inr "token" |};
     list_connections := λ _ _,
       Resp 200 {| raw := EmptyString;
                   decoded := inr [database_connection "c1" "users";
                                   database_connection "c2" "staff"] |};
     tenant := example_tenant |}.

(** The same account with a listing that answers 401. *)
Definition unauthorized_account : Auth0 :=
  {| oauth_token := oauth_token example_account;
     list_connections := λ _ _,
       Resp 401 {| raw := "Unauthorized"; decoded := inl "unexpected end of JSON input" |};
     tenant := example_tenant |}.

(** ** Tactics *)

Ltac tenant_cases :=
  repeat match goal with
         | |- context [match ?x with _ => _ end] =>
             lazymatch x with
             | context [match _ with _ => _ end] => fail
             | _ => destruct x eqn:?
             end
         | H : context [match ?x with _ => _ end] |- _ =>
             lazymatch x with
             | context [match _ with _ => _ end] => fail
             | _ => destruct x eqn:?
             end
         end; simplify_eq/=.

Ltac status_facts :=
  repeat match goal with
         | H : negb _ = true |- _ => apply negb_true_iff in H
         | H : negb _ = false |- _ => apply negb_false_iff in H
         | H : (_ =? _) = true |- _ => apply Z.eqb_eq in H
         | H : (_ =? _) = false |- _ => apply Z.eqb_neq in H
         | H : bool_decide _ = true |- _ => apply bool_decide_eq_true in H
         | H : bool_decide _ = false |- _ => apply bool_decide_eq_false in H
         end.

Ltac tenant_solve :=
  tenant_cases; status_facts; simplify_eq/=;
  try done; try lia; try congruence; eauto.

(** Membership goals over explicit lists, for the concrete instances below. *)
Ltac members H :=
  repeat (apply elem_of_cons in H as [->|H]); [..|by apply elem_of_nil in H].

Ltac not_member H :=
  repeat (apply elem_of_cons in H as [?|H]; [by simplify_eq|]); by apply elem_of_nil in H.

(** * Lemmas *)

Example example_run :
  let '((managed, err), t) := applyConnectionState ["c1"; "c2"] "app1" ["c1"] example_tenant in
  managed = ["c1"; "c2"] ∧ err = None
  ∧ clients_of t "c1" = ["app1"; "app2"] ∧ clients_of t "c2" = ["app2"]
  ∧ trace t = [GET "c1"; PATCH "c1" ["app1"; "app2"]; GET "c2"; PATCH "c2" ["app2"]].
Proof. vm_compute. done. Qed.

(** ** Sorting and comparing slices *)

Section slices.
Implicit Types a b l : list string.

Lemma sort_Strings_Permutation l : sort_Strings l ≡ₚ l.
Proof. apply merge_sort_Permutation. Qed.

Lemma sort_Strings_sorted l : StronglySorted String.le (sort_Strings l).
Proof. apply StronglySorted_merge_sort; apply _. Qed.

(** Whatever algorithm [sort.Strings] runs, its result is this one. *)
Lemma sort_Strings_unique l l' :
  StronglySorted String.le l' → l' ≡ₚ l → l' = sort_Strings l.
Proof.
  intros Hs Hp. apply (StronglySorted_unique String.le); [done | |].
  - apply sort_Strings_sorted.
  - by rewrite Hp, sort_Strings_Permutation.
Qed.

Lemma sort_Strings_eq_iff a b : sort_Strings a = sort_Strings b ↔ a ≡ₚ b.
Proof.
  split.
  - intros E. by rewrite <-(sort_Strings_Permutation a), E, sort_Strings_Permutation.
  - intros Hp. apply sort_Strings_unique; [apply sort_Strings_sorted|].
    by rewrite sort_Strings_Permutation.
Qed.

Lemma elem_of_sort_Strings x l : x ∈ sort_Strings l ↔ x ∈ l.
Proof. by rewrite sort_Strings_Permutation. Qed.

Lemma stringSlicesEqual_true a b : stringSlicesEqual a b = true ↔ a = b.
Proof.
  unfold stringSlicesEqual. split.
  - destruct (Nat.eqb_spec (length a) (length b)) as [Hlen|]; [simpl|done].
    rewrite forallb_forall. intros Hall.
    apply list_eq_same_length with (length a); [done..|].
    intros i x y Hi Hx Hy.
    specialize (Hall i). rewrite in_seq in Hall.
    rewrite negb_true_iff, bool_decide_eq_false in Hall.
    rewrite (list_lookup_total_correct _ _ _ Hx), (list_lookup_total_correct _ _ _ Hy) in Hall.
    destruct (decide (x = y)); [done|]. exfalso. apply Hall; [lia|done].
  - intros ->. rewrite Nat.eqb_refl. simpl. apply forallb_forall.
    intros i _. apply negb_true_iff, bool_decide_eq_false. naive_solver.
Qed.

Lemma stringSlicesEqual_false a b : stringSlicesEqual a b = false ↔ a ≠ b.
Proof. rewrite <-stringSlicesEqual_true. by destruct (stringSlicesEqual a b). Qed.

(** The change detection of the loop compares multisets. *)
Lemma change_detected_iff a b :
  negb (stringSlicesEqual (sort_Strings a) (sort_Strings b)) = true ↔ ¬ a ≡ₚ b.
Proof.
  rewrite negb_true_iff, stringSlicesEqual_false. by rewrite <-sort_Strings_eq_iff.
Qed.
End slices.

(** ** The rebuilt list and the lookup set *)

Section rebuild.
Implicit Types cur : list string.

Lemma survivors_filter app cur acc :
  foldl (λ newClients clientId,
           if bool_decide (clientId ≠ app) then newClients ++ [clientId] else newClients)
        acc cur
  = acc ++ filter (λ clientId, clientId ≠ app) cur.
Proof.
  revert acc. induction cur as [|x cur IH]; intros acc; simpl.
  - by rewrite app_nil_r.
  - rewrite IH, filter_cons. case_bool_decide; case_decide; try done.
    by rewrite <-app_assoc.
Qed.

Lemma rebuild_filter app enabled cur :
  rebuild app enabled cur
  = filter (λ clientId, clientId ≠ app) cur ++ (if enabled then [app] else []).
Proof.
  unfold rebuild. rewrite survivors_filter. simpl.
  destruct enabled; [done|]. by rewrite app_nil_r.
Qed.

Lemma elem_of_rebuild x app enabled cur :
  x ∈ rebuild app enabled cur ↔ (x ≠ app ∧ x ∈ cur) ∨ (x = app ∧ enabled = true).
Proof.
  rewrite rebuild_filter, elem_of_app, list_elem_of_filter.
  destruct enabled; set_solver.
Qed.

Lemma rebuild_rebuild app enabled cur l :
  l ≡ₚ rebuild app enabled cur → rebuild app enabled l ≡ₚ l.
Proof.
  intros Hl. rewrite (rebuild_filter app enabled l), Hl, rebuild_filter.
  rewrite filter_app, list_filter_filter.
  assert (filter (λ clientId, clientId ≠ app) (if enabled then [app] else []) = []) as ->.
  { destruct enabled; [|done]. rewrite filter_cons. by case_decide. }
  rewrite app_nil_r. f_equiv. apply reflexive_eq, list_filter_iff. naive_solver.
Qed.

Lemma lookup_make_enabledSet_aux (ids : list string) (m : gmap string bool) c :
  default false (foldl (λ enabledSet connId, <[connId := true]> enabledSet) m ids !! c)
  = bool_decide (c ∈ ids) || default false (m !! c).
Proof.
  revert m. induction ids as [|d ids IH]; intros m; simpl.
  - done.
  - rewrite IH. destruct (decide (c = d)) as [->|Hne].
    + rewrite lookup_insert_eq. simpl. rewrite orb_true_r.
      symmetry. rewrite bool_decide_eq_true_2; [done|]. set_solver.
    + rewrite lookup_insert_ne by done. f_equal.
      apply bool_decide_ext. set_solver.
Qed.

Lemma index_make_enabledSet (ids : list string) c :
  index (make_enabledSet ids) c = bool_decide (c ∈ ids).
Proof.
  unfold index, make_enabledSet. rewrite lookup_make_enabledSet_aux.
  rewrite lookup_empty. simpl. by rewrite orb_false_r.
Qed.
End rebuild.

(** ** One exchange *)

Section exchanges.
Implicit Types (t : Tenant) (c : string) (l cur : list string).

Global Instance same_setup_refl : Reflexive same_setup.
Proof. by intros t. Qed.

Global Instance same_setup_trans : Transitive same_setup.
Proof. intros t1 t2 t3 (?&?&?&?) (?&?&?&?). repeat split; congruence. Qed.

Lemma same_setup_is_Some t t' c :
  same_setup t t' → is_Some (connections t' !! c) ↔ is_Some (connections t !! c).
Proof. intros (_&_&_&Hd). by rewrite <-!elem_of_dom, Hd. Qed.

Lemma getConnectionClients_tenant c t :
  (getConnectionClients c t).2 = after_read t c.
Proof. unfold getConnectionClients, after_read, get_outcome. tenant_cases; done. Qed.

Lemma updateConnectionClients_tenant c l t :
  url_error t c = None →
  (updateConnectionClients c l t).2 = exchange (PATCH c l) (patch_outcome t c l).2 t.
Proof.
  intros Hu. unfold updateConnectionClients, patch_outcome. rewrite Hu. tenant_cases; done.
Qed.

Lemma getConnectionClients_eq c t :
  getConnectionClients c t = (read_of t c, after_read t c).
Proof. rewrite <-getConnectionClients_tenant. unfold read_of. by destruct getConnectionClients. Qed.

(** A read that returns no error had its request built and handed over. *)
Lemma read_of_None_url t c cur : read_of t c = (cur, None) → url_error t c = None.
Proof. unfold read_of, getConnectionClients, get_outcome. intros H. tenant_solve. Qed.

Lemma after_read_built t c cur :
  read_of t c = (cur, None) → after_read t c = exchange (GET c) (connections t) t.
Proof. intros Hu%read_of_None_url. unfold after_read. by rewrite Hu. Qed.

Lemma after_read_same_setup t c : same_setup t (after_read t c).
Proof. unfold after_read. by destruct (url_error t c). Qed.

Lemma after_read_connections t c : connections (after_read t c) = connections t.
Proof. unfold after_read. by destruct (url_error t c). Qed.

Lemma updateConnectionClients_eq c l t :
  url_error t c = None →
  updateConnectionClients c l t
  = (write_error t c l, exchange (PATCH c l) (patch_outcome t c l).2 t).
Proof.
  intros Hu. rewrite <-updateConnectionClients_tenant by done. unfold write_error.
  by destruct updateConnectionClients.
Qed.

(** A read that succeeds returns the list the tenant holds. *)
Lemma reads_ok_read_of t c :
  reads_ok t c = true →
  read_of t c = (clients_of t c, None) ∧ is_Some (connections t !! c).
Proof.
  unfold reads_ok, read_of, getConnectionClients, clients_of, get_outcome.
  intros H. tenant_solve.
Qed.

(** A read without error either succeeded or was answered with another
    status, in which case the list is empty. *)
Lemma read_of_None t c cur :
  read_of t c = (cur, None) → reads_ok t c = true ∨ (reads_ok t c = false ∧ cur = []).
Proof.
  unfold reads_ok, read_of, getConnectionClients, get_outcome.
  intros H. tenant_cases; auto; status_facts; try lia;
    try (right; split; [by apply bool_decide_eq_false|done]);
    try (left; by apply bool_decide_eq_true).
Qed.

Lemma reads_ok_same_setup t t' c : same_setup t t' → reads_ok t' c = reads_ok t c.
Proof.
  intros Hs. pose proof (same_setup_is_Some _ _ c Hs) as Hd. destruct Hs as (Hu&Hg&_&_).
  unfold reads_ok, get_outcome. rewrite Hu, Hg.
  destruct (connections t' !! c), (connections t !! c); tenant_solve;
    exfalso; (by apply (is_Some_None (A:=list string)), Hd)
             || (by apply (is_Some_None (A:=list string)), Hd).
Qed.

(** A write succeeds exactly when it returns no error; it then stores the
    list sent, and otherwise stores nothing. *)
Lemma write_error_None t c l :
  write_error t c l = None ↔ writes_ok t c = true.
Proof.
  unfold write_error, writes_ok, updateConnectionClients, patch_outcome.
  split; intros H; tenant_cases; status_facts; try done; try lia;
    try by apply bool_decide_eq_true.
Qed.

Lemma writes_ok_stored t c l :
  writes_ok t c = true →
  (patch_outcome t c l).2 = <[c := l]> (connections t) ∧ is_Some (connections t !! c).
Proof.
  unfold writes_ok, patch_outcome.
  intros H; tenant_solve.
Qed.

Lemma write_error_stored t c l err :
  write_error t c l = Some err → (patch_outcome t c l).2 = connections t.
Proof.
  unfold write_error, updateConnectionClients, patch_outcome.
  intros H; tenant_solve.
Qed.

Lemma writes_ok_same_setup t t' c : same_setup t t' → writes_ok t' c = writes_ok t c.
Proof.
  intros Hs. pose proof (same_setup_is_Some _ _ c Hs) as Hd. destruct Hs as (Hu&_&Hp&_).
  unfold writes_ok, patch_outcome. rewrite Hu, Hp.
  destruct (connections t' !! c), (connections t !! c); tenant_solve;
    exfalso; (by apply (is_Some_None (A:=list string)), Hd)
             || (by apply (is_Some_None (A:=list string)), Hd).
Qed.
(** A read that returns an error does so whatever the lists held. *)
Lemma read_error_same_setup t t' c cur err :
  same_setup t t' → read_of t c = (cur, Some err) → read_of t' c = (cur, Some err).
Proof.
  intros (Hu & Hg & _ & _). unfold read_of, getConnectionClients, get_outcome.
  rewrite Hu, Hg.
  destruct (connections t !! c), (connections t' !! c); intros H; tenant_solve.
Qed.

End exchanges.

(** ** One iteration of the loop *)

Section iterations.
Implicit Types (t : Tenant) (c app : string) (m l cur : list string).

Lemma write_error_after_read t c r l :
  write_error (exchange r (connections t) t) c l = write_error t c l.
Proof.
  unfold write_error, updateConnectionClients.
  change (patch_outcome (exchange r (connections t) t) c l) with (patch_outcome t c l).
  tenant_cases; done.
Qed.

Lemma loop_body_iteration app enabledSet c m t ctl t' :
  loop_body app enabledSet c m t = (ctl, t') →
  iteration app (index enabledSet c) c m t ctl t'.
Proof.
  unfold loop_body. rewrite getConnectionClients_eq.
  destruct (read_of t c) as [cur [err|]] eqn:Hread.
  { intros [= <- <-]. by eapply iteration_skipped. }
  rewrite (after_read_built _ _ _ Hread).
  destruct (negb (stringSlicesEqual _ _)) eqn:Hchg.
  - apply (proj1 (change_detected_iff _ _)) in Hchg.
    rewrite updateConnectionClients_eq by exact (read_of_None_url _ _ _ Hread).
    rewrite write_error_after_read.
    change (patch_outcome (exchange _ (connections t) t) c ?l) with (patch_outcome t c l).
    destruct (write_error t c _) as [err|] eqn:Hw; intros [= <- <-].
    + rewrite (write_error_stored _ _ _ _ Hw). by eapply iteration_failed.
    + apply write_error_None in Hw.
      rewrite (proj1 (writes_ok_stored _ _ _ Hw)). by eapply iteration_written.
  - apply negb_false_iff, stringSlicesEqual_true, sort_Strings_eq_iff in Hchg.
    intros [= <- <-]. by eapply iteration_unchanged.
Qed.

(** An iteration leaves the faults and the set of connections alone, and
    only ever extends the trace. *)
Lemma iteration_same_setup app enabled c m t ctl t' :
  iteration app enabled c m t ctl t' → same_setup t t'.
Proof.
  destruct 1 as [| |cur _ _ Hw|]; try done; [apply after_read_same_setup|].
  repeat split; simpl. apply writes_ok_stored with (l := []) in Hw as [_ Hc].
  apply set_eq. intros c'. rewrite dom_insert, elem_of_union, elem_of_singleton, !elem_of_dom.
  naive_solver.
Qed.

(** The connection of an iteration is the only one whose list can change. *)
Lemma iteration_other app enabled c m t ctl t' c' :
  iteration app enabled c m t ctl t' → c' ≠ c → clients_of t' c' = clients_of t c'.
Proof.
  unfold clients_of. destruct 1; intros Hne; simpl; try done.
  - by rewrite after_read_connections.
  - by rewrite lookup_insert_ne.
Qed.

(** The requests of an iteration: none when the request of the read cannot
    be built, else the read, then at most one write. *)
Lemma iteration_trace app enabled c m t ctl t' :
  iteration app enabled c m t ctl t' →
  (trace t' = trace t ∧ url_error t c ≠ None)
  ∨ (trace t' = trace t ++ [GET c] ∧ url_error t c = None)
  ∨ ∃ cur, read_of t c = (cur, None) ∧ ¬ cur ≡ₚ rebuild app enabled cur
      ∧ trace t' = trace t ++ [GET c; PATCH c (sort_Strings (rebuild app enabled cur))].
Proof.
  destruct 1 as [cur err Hr|cur Hr|cur Hr|cur err Hr]; simpl.
  - unfold after_read. destruct (url_error t c) eqn:Hu; [by left|by right; left].
  - right; left. split; [done|]. by eapply read_of_None_url.
  - right; right. eexists. rewrite <-app_assoc. eauto.
  - right; right. eexists. rewrite <-app_assoc. eauto.
Qed.
End iterations.

(** ** Lists that need no change *)

Section settled.
Implicit Types (t : Tenant) (c app : string) (m l cur : list string).

Lemma settled_sort_rebuild app enabled cur :
  settled app enabled (sort_Strings (rebuild app enabled cur)).
Proof.
  unfold settled. symmetry. eapply rebuild_rebuild, sort_Strings_Permutation.
Qed.

Lemma settled_elem_of app enabled l : settled app enabled l → app ∈ l ↔ enabled = true.
Proof.
  unfold settled. intros Hs. rewrite Hs at 1. rewrite elem_of_rebuild. naive_solver.
Qed.

Lemma others_sort_rebuild app enabled cur :
  filter (λ x, x ≠ app) (sort_Strings (rebuild app enabled cur))
  ≡ₚ filter (λ x, x ≠ app) cur.
Proof.
  rewrite sort_Strings_Permutation, rebuild_filter, filter_app, list_filter_filter.
  assert (filter (λ x, x ≠ app) (if enabled then [app] else []) = []) as ->.
  { destruct enabled; [|done]. rewrite filter_cons. by case_decide. }
  rewrite app_nil_r. apply reflexive_eq, list_filter_iff. naive_solver.
Qed.

Lemma no_app_among_others app cur :
  filter (λ x, x = app) (filter (λ x, x ≠ app) cur) = [].
Proof.
  induction cur as [|x cur IH]; [done|].
  rewrite filter_cons. case_decide; [|done].
  rewrite filter_cons. by case_decide.
Qed.

(** An iteration keeps, on every connection it can read, the clients other
    than the application, each as many times as before. *)
Lemma iteration_others app enabled c m t ctl t' c0 :
  iteration app enabled c m t ctl t' →
  reads_ok t c0 = true →
  filter (λ x, x ≠ app) (clients_of t' c0) ≡ₚ filter (λ x, x ≠ app) (clients_of t c0).
Proof.
  intros Hit Hr. destruct (decide (c0 = c)) as [->|Hne].
  - apply reads_ok_read_of in Hr as [Hr _].
    destruct Hit as [| |cur Hread _ _|]; try done.
    { unfold clients_of. by rewrite after_read_connections. }
    rewrite Hr in Hread. injection Hread as <-.
    unfold clients_of at 1. simpl. rewrite lookup_insert_eq. simpl.
    apply others_sort_rebuild.
  - by rewrite (iteration_other _ _ _ _ _ _ _ _ Hit Hne).
Qed.

(** After an iteration that did not fail, a readable connection is settled. *)
Lemma iteration_settles app enabled c m t m' t' :
  iteration app enabled c m t (Continue m') t' →
  reads_ok t c = true →
  settled app enabled (clients_of t' c).
Proof.
  intros Hit Hr. apply reads_ok_read_of in Hr as [Hr _].
  inversion Hit as [cur err Hread|cur Hread Hs|cur Hread _ _|]; subst;
    rewrite Hr in Hread; simplify_eq.
  - done.
  - unfold clients_of at 1. simpl. rewrite lookup_insert_eq. simpl.
    apply settled_sort_rebuild.
Qed.

(** On a readable, settled connection an iteration only reads. *)
Lemma iteration_settled app enabled c m t ctl t' :
  iteration app enabled c m t ctl t' →
  reads_ok t c = true →
  settled app enabled (clients_of t c) →
  ctl = Continue m ∧ t' = exchange (GET c) (connections t) t.
Proof.
  intros Hit Hr Hs. apply reads_ok_read_of in Hr as [Hr _].
  destruct Hit as [cur err Hread|cur Hread|cur Hread Hn|cur err Hread Hn];
    rewrite Hr in Hread; simplify_eq; done.
Qed.
End settled.

(** ** The whole loop *)

Section runs.
Implicit Types (t : Tenant) (c app : string) (m l cur all : list string).
Implicit Types (enabledSet : gmap string bool).

Lemma range_cons app enabledSet c all m t :
  range_allConnections app enabledSet (c :: all) m t
  = match loop_body app enabledSet c m t with
    | (Continue m1, t1) => range_allConnections app enabledSet all m1 t1
    | (Return m1 err, t1) => ((m1, Some err), t1)
    end.
Proof. done. Qed.

(** Induction over the iterations of a run. *)
Lemma range_ind app enabledSet (P : list string → list string → Tenant →
    (list string * option error) * Tenant → Prop) :
  (∀ m t, P [] m t ((m, None), t)) →
  (∀ c all m t m1 t1 r,
     iteration app (index enabledSet c) c m t (Continue m1) t1 →
     range_allConnections app enabledSet all m1 t1 = r →
     P all m1 t1 r → P (c :: all) m t r) →
  (∀ c all m t m1 err t1,
     iteration app (index enabledSet c) c m t (Return m1 err) t1 →
     P (c :: all) m t ((m1, Some err), t1)) →
  ∀ all m t, P all m t (range_allConnections app enabledSet all m t).
Proof.
  intros Hnil Hcont Hret. induction all as [|c all IH]; intros m t; [apply Hnil|].
  rewrite range_cons.
  destruct (loop_body app enabledSet c m t) as [[m1|m1 err] t1] eqn:Hb;
    apply loop_body_iteration in Hb; eauto.
Qed.

Lemma range_same_setup app enabledSet all m t :
  same_setup t (range_allConnections app enabledSet all m t).2.
Proof.
  revert all m t. apply (range_ind app enabledSet (λ all m t r, same_setup t r.2)); simpl.
  - done.
  - intros c all m t m1 t1 r Hit _ IH. etrans; [|done]. by eapply iteration_same_setup.
  - intros c all m t m1 err t1 Hit. by eapply iteration_same_setup.
Qed.

(** Non-interference, with multiplicities. *)
Lemma range_others app enabledSet c0 all m t :
  reads_ok t c0 = true →
  filter (λ x, x ≠ app) (clients_of (range_allConnections app enabledSet all m t).2 c0)
  ≡ₚ filter (λ x, x ≠ app) (clients_of t c0).
Proof.
  revert all m t. apply (range_ind app enabledSet (λ all m t r,
    reads_ok t c0 = true →
    filter (λ x, x ≠ app) (clients_of r.2 c0) ≡ₚ filter (λ x, x ≠ app) (clients_of t c0)));
    simpl.
  - done.
  - intros c all m t m1 t1 r Hit _ IH Hr.
    rewrite IH, (iteration_others _ _ _ _ _ _ _ _ Hit Hr); [done|].
    by rewrite (reads_ok_same_setup t t1) by by eapply iteration_same_setup.
  - intros c all m t m1 err t1 Hit Hr. by eapply iteration_others.
Qed.

(** A settled, readable connection stays settled. *)
Lemma range_keeps_settled app enabledSet c0 all m t :
  reads_ok t c0 = true →
  settled app (index enabledSet c0) (clients_of t c0) →
  clients_of (range_allConnections app enabledSet all m t).2 c0 = clients_of t c0.
Proof.
  revert all m t. apply (range_ind app enabledSet (λ all m t r,
    reads_ok t c0 = true → settled app (index enabledSet c0) (clients_of t c0) →
    clients_of r.2 c0 = clients_of t c0)); simpl.
  - done.
  - intros c all m t m1 t1 r Hit _ IH Hr Hs.
    assert (clients_of t1 c0 = clients_of t c0) as E.
    { destruct (decide (c0 = c)) as [->|Hne]; [|by eapply iteration_other].
      by destruct (iteration_settled _ _ _ _ _ _ _ Hit Hr Hs) as [_ ->]. }
    rewrite IH, E; [done| |by rewrite E].
    by rewrite (reads_ok_same_setup t t1) by by eapply iteration_same_setup.
  - intros c all m t m1 err t1 Hit Hr Hs.
    destruct (decide (c0 = c)) as [->|Hne]; [|by eapply iteration_other].
    by destruct (iteration_settled _ _ _ _ _ _ _ Hit Hr Hs) as [_ ->].
Qed.

(** A run that returns no error leaves every readable connection of the
    list settled. *)
Lemma range_settles app enabledSet all m t m' t' :
  range_allConnections app enabledSet all m t = ((m', None), t') →
  ∀ c, c ∈ all → reads_ok t c = true →
  settled app (index enabledSet c) (clients_of t' c).
Proof.
  revert all m t m' t'. refine (range_ind app enabledSet (λ all m t r,
    ∀ m' t', r = ((m', None), t') →
    ∀ c, c ∈ all → reads_ok t c = true →
    settled app (index enabledSet c) (clients_of t' c)) _ _ _); simpl.
  - intros m t m' t' _ c Hc. by apply elem_of_nil in Hc.
  - intros c all m t m1 t1 r Hit Hrun IH m' t' -> c0 Hc0 Hr.
    assert (same_setup t t1) as Hs by by eapply iteration_same_setup.
    destruct (decide (c0 ∈ all)) as [Hin|Hnin].
    { eapply IH; [done..|]. by rewrite (reads_ok_same_setup t t1). }
    apply elem_of_cons in Hc0 as [->|]; [|done].
    pose proof (iteration_settles _ _ _ _ _ _ _ Hit Hr) as Hset.
    pose proof (range_keeps_settled app enabledSet c all m1 t1) as Hk.
    rewrite Hrun in Hk. simpl in Hk. rewrite Hk; [done| |done].
    by rewrite (reads_ok_same_setup t t1).
  - intros c all m t m1 err t1 _ m' t' [=].
Qed.

(** Over connections that are all readable and settled, a run only reads. *)
Lemma range_settled app enabledSet all m t :
  (∀ c, c ∈ all → reads_ok t c = true ∧ settled app (index enabledSet c) (clients_of t c)) →
  range_allConnections app enabledSet all m t
  = ((m, None),
     {| connections := connections t; url_error := url_error t; get_fault := get_fault t;
        patch_fault := patch_fault t; trace := trace t ++ (GET <$> all) |}).
Proof.
  revert m t. induction all as [|c all IH]; intros m t Hall.
  - simpl. rewrite app_nil_r. by destruct t.
  - rewrite range_cons.
    destruct (loop_body app enabledSet c m t) as [ctl t1] eqn:Hb.
    apply loop_body_iteration in Hb.
    destruct (Hall c) as [Hr Hs]; [set_solver|].
    destruct (iteration_settled _ _ _ _ _ _ _ Hb Hr Hs) as [-> ->].
    rewrite IH; simpl.
    + by rewrite <-app_assoc.
    + intros c' Hc'. destruct (Hall c') as [Hr' Hs']; [set_solver|]. done.
Qed.

(** When every write is accepted the loop runs to its end. *)
Lemma range_no_error app enabledSet all m t :
  (∀ c, c ∈ all → writes_ok t c = true) →
  (range_allConnections app enabledSet all m t).1.2 = None.
Proof.
  revert all m t. apply (range_ind app enabledSet (λ all m t r,
    (∀ c, c ∈ all → writes_ok t c = true) → r.1.2 = None)); simpl.
  - done.
  - intros c all m t m1 t1 r Hit _ IH Hall. apply IH. intros c' Hc'.
    rewrite (writes_ok_same_setup t t1) by by eapply iteration_same_setup.
    apply Hall. set_solver.
  - intros c all m t m1 err t1 Hit Hall.
    inversion Hit as [| | |cur err' _ _ Hw]; subst.
    assert (writes_ok t c = true) as Hok by (apply Hall; set_solver).
    apply (write_error_None t c (sort_Strings (rebuild app (index enabledSet c) cur))) in Hok.
    congruence.
Qed.
(** The loop over a list in two parts: the second part runs only if the
    first did not return. *)
Lemma range_app app enabledSet pre rest m t :
  range_allConnections app enabledSet (pre ++ rest) m t
  = match range_allConnections app enabledSet pre m t with
    | ((m1, None), t1) => range_allConnections app enabledSet rest m1 t1
    | r => r
    end.
Proof.
  revert m t. induction pre as [|c pre IH]; intros m t; [done|].
  rewrite <-app_comm_cons, !range_cons.
  destruct (loop_body app enabledSet c m t) as [[m1|m1 err] t1]; [apply IH|done].
Qed.

(** A run that returns an error returns no managed list with it. *)
Lemma range_error_nil app enabledSet all m t err :
  (range_allConnections app enabledSet all m t).1.2 = Some err →
  (range_allConnections app enabledSet all m t).1.1 = [].
Proof.
  revert all m t. apply (range_ind app enabledSet (λ all m t r,
    r.1.2 = Some err → r.1.1 = [])); simpl; [done|auto|].
  intros c all m t m1 err' t1 Hit _. by inversion Hit.
Qed.

(** Otherwise the managed list grows by connections of the list, in order. *)
Lemma range_managed app enabledSet all m t :
  (range_allConnections app enabledSet all m t).1.2 = None →
  ∃ m', (range_allConnections app enabledSet all m t).1.1 = m ++ m'
        ∧ m' `sublist_of` all.
Proof.
  revert all m t. apply (range_ind app enabledSet (λ all m t r,
    r.1.2 = None → ∃ m', r.1.1 = m ++ m' ∧ m' `sublist_of` all)); simpl.
  - intros m t _. exists []. by rewrite app_nil_r.
  - intros c all m t m1 t1 r Hit _ IH Hnone.
    destruct (IH Hnone) as (m' & -> & Hsub).
    inversion Hit; subst.
    + exists m'. split; [done|]. by apply sublist_cons.
    + exists m'. split; [done|]. by apply sublist_cons.
    + exists (c :: m'). split; [by rewrite <-app_assoc|]. by apply sublist_skip.
  - done.
Qed.

(** Every request of a run is about a connection of the list, and every
    write carries a sorted rebuilt list. *)
Lemma sent_by_loop_further app enabledSet c all r :
  sent_by_loop app enabledSet all r → sent_by_loop app enabledSet (c :: all) r.
Proof. intros [Hc Hr]. split; [by apply list_elem_of_further|done]. Qed.

Lemma iteration_requests app enabledSet c all m t ctl t' :
  iteration app (index enabledSet c) c m t ctl t' →
  ∃ evs, trace t' = trace t ++ evs ∧ Forall (sent_by_loop app enabledSet (c :: all)) evs.
Proof.
  intros Hit.
  destruct (iteration_trace _ _ _ _ _ _ _ Hit) as [[-> _]|[[-> _]|(cur & _ & _ & ->)]].
  - exists []. by rewrite app_nil_r.
  - eexists. split; [done|]. repeat apply Forall_cons_2; try apply Forall_nil_2.
    split; [apply list_elem_of_here|done].
  - eexists. split; [done|]. repeat apply Forall_cons_2; try apply Forall_nil_2.
    + split; [apply list_elem_of_here|done].
    + split; [apply list_elem_of_here|by exists cur].
Qed.

Lemma range_requests app enabledSet all m t :
  ∃ evs, trace (range_allConnections app enabledSet all m t).2 = trace t ++ evs
         ∧ Forall (sent_by_loop app enabledSet all) evs.
Proof.
  revert all m t. apply (range_ind app enabledSet (λ all m t r,
    ∃ evs, trace r.2 = trace t ++ evs ∧ Forall (sent_by_loop app enabledSet all) evs)); simpl.
  - intros m t. exists []. by rewrite app_nil_r.
  - intros c all m t m1 t1 r Hit _ (evs & -> & Hevs).
    destruct (iteration_requests _ _ _ all _ _ _ _ Hit) as (evs1 & -> & Hevs1).
    exists (evs1 ++ evs). split; [by rewrite app_assoc|].
    apply Forall_app. split; [done|].
    eapply Forall_impl; [done|]. intros ?. apply sent_by_loop_further.
  - intros c all m t m1 err t1 Hit. by eapply iteration_requests.
Qed.

(** The writes of a whole run carry sorted lists. *)
Lemma writes_of_run_sorted all app want t c l :
  PATCH c l ∈ since (length (trace t)) (applyConnectionState all app want t).2 →
  c ∈ all ∧ StronglySorted String.le l.
Proof.
  unfold applyConnectionState, since.
  destruct (range_requests app (make_enabledSet want) all [] t) as (evs & -> & Hevs).
  rewrite drop_app_length. rewrite Forall_forall in Hevs.
  intros [Hc [cur ->]]%Hevs. split; [done|apply sort_Strings_sorted].
Qed.

(** The loop consults the lookup set only at the connections of the list. *)
Lemma range_ext app enabledSet enabledSet' all m t :
  (∀ c, c ∈ all → index enabledSet c = index enabledSet' c) →
  range_allConnections app enabledSet all m t
  = range_allConnections app enabledSet' all m t.
Proof.
  revert m t. induction all as [|c all IH]; intros m t Hidx; [done|].
  rewrite !range_cons.
  assert (loop_body app enabledSet c m t = loop_body app enabledSet' c m t) as ->.
  { unfold loop_body. rewrite (Hidx c) by apply list_elem_of_here. done. }
  destruct (loop_body app enabledSet' c m t) as [[m1|m1 err] t1]; [|done].
  apply IH. intros c' Hc'. by apply Hidx, list_elem_of_further.
Qed.
End runs.

(** ** Properties of the reconciliation *)

(** C1 (membership correctness).  When the read and the write of every listed
    connection succeed, then after [applyConnectionState] has run for [app]
    with the desired connections [want], [app] is among the enabled clients
    of a listed connection [c] exactly when [c] is in [want]. *)
Theorem C1_membership_correctness (t : Tenant) (allConnections : list string)
    (app : string) (want : list string) :
  (∀ c, c ∈ allConnections → reads_ok t c = true ∧ writes_ok t c = true) →
  ∀ c, c ∈ allConnections →
    app ∈ clients_of (applyConnectionState allConnections app want t).2 c ↔ c ∈ want.
Proof.
  intros Hok c Hc. unfold applyConnectionState.
  pose proof (range_no_error app (make_enabledSet want) allConnections [] t) as Hnone.
  destruct (range_allConnections _ _ _ _ _) as [[managed err] t'] eqn:Hrun. simpl in *.
  rewrite Hnone in Hrun by (intros ? ?; by apply Hok).
  rewrite (settled_elem_of app (index (make_enabledSet want) c)).
  - by rewrite index_make_enabledSet, bool_decide_eq_true.
  - eapply range_settles; [done..|]. by apply Hok.
Qed.

Lemma C1_membership_correctness_witness :
  (∀ c, c ∈ ["c1"; "c2"] → reads_ok example_tenant c = true ∧ writes_ok example_tenant c = true)
  ∧ ("app1" ∈ clients_of (applyConnectionState ["c1"; "c2"] "app1" ["c1"] example_tenant).2 "c2"
     ↔ "c2" ∈ ["c1"]).
Proof.
  assert (∀ c, c ∈ ["c1"; "c2"] →
            reads_ok example_tenant c = true ∧ writes_ok example_tenant c = true) as Hok.
  { intros c Hc. members Hc; by vm_compute. }
  split; [exact Hok|].
  apply (C1_membership_correctness example_tenant ["c1"; "c2"] "app1" ["c1"] Hok).
  apply list_elem_of_further, list_elem_of_here.
Defined.

(** C2 (non-interference).  For an application [other] different from [app]
    and a connection [c] whose read succeeds, [other] is among the enabled
    clients of [c] after a reconciliation for [app] exactly when it was
    before: the call only adds or removes [app]. *)
Theorem C2_non_interference (t : Tenant) (allConnections : list string)
    (app : string) (want : list string) (other c : string) :
  other ≠ app →
  reads_ok t c = true →
  other ∈ clients_of t c
  ↔ other ∈ clients_of (applyConnectionState allConnections app want t).2 c.
Proof.
  intros Hne Hr.
  pose proof (range_others app (make_enabledSet want) c allConnections [] t Hr) as Hp.
  fold (applyConnectionState allConnections app want t) in Hp.
  assert (∀ l : list string, other ∈ l ↔ other ∈ filter (λ x, x ≠ app) l) as Hf.
  { intros l. rewrite list_elem_of_filter. naive_solver. }
  by rewrite (Hf (clients_of t c)), (Hf (clients_of _ c)), Hp.
Qed.

Lemma C2_non_interference_witness :
  "app2" ≠ "app1" ∧ reads_ok example_tenant "c2" = true
  ∧ ("app2" ∈ clients_of example_tenant "c2"
     ↔ "app2" ∈ clients_of (applyConnectionState ["c1"; "c2"] "app1" ["c1"] example_tenant).2 "c2").
Proof.
  assert ("app2" ≠ "app1") as Hne by done.
  assert (reads_ok example_tenant "c2" = true) as Hr by by vm_compute.
  split; [exact Hne|]. split; [exact Hr|].
  exact (C2_non_interference example_tenant ["c1"; "c2"] "app1" ["c1"] "app2" "c2" Hne Hr).
Defined.

(** Two runs in a row, when every listed connection is read.  After a first
    run that returned no error, a second run with the same application and
    desired connections on the tenant as the first run left it returns an
    empty managed list and no error, sends one read per listed connection
    and no write, and leaves every list as it was. *)
Theorem idempotent_when_reads_succeed (t : Tenant) (allConnections : list string)
    (app : string) (want : list string) (managed : list string) (t1 : Tenant) :
  (∀ c, c ∈ allConnections → reads_ok t c = true) →
  applyConnectionState allConnections app want t = ((managed, None), t1) →
  let second := applyConnectionState allConnections app want t1 in
  second.1 = ([], None)
  ∧ since (length (trace t1)) second.2 = GET <$> allConnections
  ∧ (∀ c l, PATCH c l ∉ since (length (trace t1)) second.2)
  ∧ connections second.2 = connections t1.
Proof.
  intros Hr Hrun second. subst second. unfold applyConnectionState in *.
  rewrite range_settled.
  - simpl. unfold since. simpl. rewrite drop_app_length.
    repeat split; try done.
    intros c l [c' [[=] _]]%list_elem_of_fmap.
  - intros c Hc. split.
    + pose proof (range_same_setup app (make_enabledSet want) allConnections [] t) as Hs.
      rewrite Hrun in Hs. rewrite (reads_ok_same_setup t t1) by done. by apply Hr.
    + eapply range_settles; [done..|]. by apply Hr.
Qed.

Lemma idempotent_when_reads_succeed_witness :
  let t1 := (applyConnectionState ["c1"; "c2"] "app1" ["c1"] example_tenant).2 in
  let second := applyConnectionState ["c1"; "c2"] "app1" ["c1"] t1 in
  (∀ c, c ∈ ["c1"; "c2"] → reads_ok example_tenant c = true)
  ∧ applyConnectionState ["c1"; "c2"] "app1" ["c1"] example_tenant = ((["c1"; "c2"], None), t1)
  ∧ second.1 = ([], None)
  ∧ since (length (trace t1)) second.2 = GET <$> ["c1"; "c2"]
  ∧ (∀ c l, PATCH c l ∉ since (length (trace t1)) second.2)
  ∧ connections second.2 = connections t1.
Proof.
  assert (∀ c, c ∈ ["c1"; "c2"] → reads_ok example_tenant c = true) as Hr.
  { intros c Hc. members Hc; by vm_compute. }
  assert (applyConnectionState ["c1"; "c2"] "app1" ["c1"] example_tenant
          = ((["c1"; "c2"], None),
             (applyConnectionState ["c1"; "c2"] "app1" ["c1"] example_tenant).2)) as Hrun.
  { by vm_compute. }
  split; [exact Hr|]. split; [exact Hrun|].
  exact (idempotent_when_reads_succeed example_tenant ["c1"; "c2"] "app1" ["c1"]
           ["c1"; "c2"] _ Hr Hrun).
Defined.

(** C4, as the specification states it, fails: the list written is not the
    rebuilt list in its original order.  The connection holds [b; a], the
    application is added, the rebuilt list is [b; a; app], a change is
    detected, and the request carries [a; app; b]. *)
Lemma C4_unsorted_write_counterexample :
  let t := tenant_of [("c1", ["b"; "a"])] in
  let next := rebuild "app" (index (make_enabledSet ["c1"]) "c1") ["b"; "a"] in
  read_of t "c1" = (["b"; "a"], None)
  ∧ next = ["b"; "a"; "app"]
  ∧ stringSlicesEqual (sort_Strings ["b"; "a"]) (sort_Strings next) = false
  ∧ trace (applyConnectionState ["c1"] "app" ["c1"] t).2
    = [GET "c1"; PATCH "c1" ["a"; "app"; "b"]]
  ∧ PATCH "c1" next ∉ trace (applyConnectionState ["c1"] "app" ["c1"] t).2.
Proof.
  repeat split; try by vm_compute.
  assert (trace (applyConnectionState ["c1"] "app" ["c1"] (tenant_of [("c1", ["b"; "a"])])).2
          = [GET "c1"; PATCH "c1" ["a"; "app"; "b"]]) as -> by by vm_compute.
  assert (rebuild "app" (index (make_enabledSet ["c1"]) "c1") ["b"; "a"] = ["b"; "a"; "app"])
    as -> by by vm_compute.
  intros H. not_member H.
Qed.

(** C4, amended.  When the change detection finds the lists unequal, the
    iteration sends, after the read, one write that carries the rebuilt list
    as [sort.Strings] left it: in ascending order, with the same elements as
    the survivors followed by the application when desired.  That sorted list
    is what the tenant stores when it accepts the write. *)
Theorem C4_write_carries_sorted_list (app : string) (enabledSet : gmap string bool)
    (c : string) (m : list string) (t : Tenant) (cur : list string) :
  read_of t c = (cur, None) →
  stringSlicesEqual (sort_Strings cur)
    (sort_Strings (rebuild app (index enabledSet c) cur)) = false →
  let next := rebuild app (index enabledSet c) cur in
  let t' := (loop_body app enabledSet c m t).2 in
  trace t' = trace t ++ [GET c; PATCH c (sort_Strings next)]
  ∧ StronglySorted String.le (sort_Strings next)
  ∧ sort_Strings next ≡ₚ filter (λ x, x ≠ app) cur ++ (if index enabledSet c then [app] else [])
  ∧ (writes_ok t c = true → connections t' !! c = Some (sort_Strings next)).
Proof.
  intros Hread Hchg next t'. subst t'.
  destruct (loop_body app enabledSet c m t) as [ctl t'] eqn:Hb. simpl.
  apply loop_body_iteration in Hb.
  assert (¬ cur ≡ₚ next) as Hne.
  { apply change_detected_iff. unfold next. by rewrite Hchg. }
  split; [|split; [apply sort_Strings_sorted|split]].
  - destruct Hb as [? ? Hr|? Hr Hs|? Hr _ _|? ? Hr _ _]; rewrite Hread in Hr; simplify_eq/=;
      by rewrite <-?app_assoc.
  - subst next. by rewrite sort_Strings_Permutation, rebuild_filter.
  - intros Hw.
    destruct Hb as [? ? Hr|? Hr Hs|? Hr _ _|? ? Hr _ Hf]; rewrite Hread in Hr; simplify_eq/=.
    + done.
    + by rewrite lookup_insert_eq.
    + apply (write_error_None t c (sort_Strings next)) in Hw. subst next. congruence.
Qed.

Lemma C4_write_carries_sorted_list_witness :
  let t := tenant_of [("c1", ["b"; "a"])] in
  let es := make_enabledSet ["c1"] in
  let t' := (loop_body "app" es "c1" [] t).2 in
  trace t' = trace t ++ [GET "c1"; PATCH "c1" (sort_Strings (rebuild "app" (index es "c1") ["b"; "a"]))]
  ∧ connections t' !! "c1" = Some ["a"; "app"; "b"].
Proof.
  assert (read_of (tenant_of [("c1", ["b"; "a"])]) "c1" = (["b"; "a"], None)) as Hread
    by by vm_compute.
  assert (stringSlicesEqual (sort_Strings ["b"; "a"])
            (sort_Strings (rebuild "app" (index (make_enabledSet ["c1"]) "c1") ["b"; "a"]))
          = false) as Hchg by by vm_compute.
  destruct (C4_write_carries_sorted_list "app" (make_enabledSet ["c1"]) "c1" []
              (tenant_of [("c1", ["b"; "a"])]) ["b"; "a"] Hread Hchg) as (Htr & _ & _ & Hst).
  split; [exact Htr|]. rewrite Hst; by vm_compute.
Defined.

(** C5, at the failing input.  The tenant answers the read of [c1] with 403
    and would accept a write; [app1] is desired on [c1].  The read returns an
    empty list and no error, and the loop goes on to write [app1] alone to
    the connection it could not read, which drops [app2]. *)
Theorem C5_unreadable_connection_is_written :
  reads_ok forbidden_tenant "c1" = false
  ∧ read_of forbidden_tenant "c1" = ([], None)
  ∧ (applyConnectionState ["c1"] "app1" ["c1"] forbidden_tenant).1 = (["c1"], None)
  ∧ trace (applyConnectionState ["c1"] "app1" ["c1"] forbidden_tenant).2
    = [GET "c1"; PATCH "c1" ["app1"]]
  ∧ clients_of (applyConnectionState ["c1"] "app1" ["c1"] forbidden_tenant).2 "c1" = ["app1"].
Proof. repeat split; by vm_compute. Qed.

(** C3, at the failing input.  On the tenant of C5 (the read of [c1] is
    answered with 403, a write is accepted, [app1] is desired on [c1]) the
    first run returns no error, and the second run, started on the tenant
    the first one left, with the same application and desired connections,
    sends the write again and reports [c1] as managed again. *)
Theorem C3_second_run_writes_again :
  let first := applyConnectionState ["c1"] "app1" ["c1"] forbidden_tenant in
  let second := applyConnectionState ["c1"] "app1" ["c1"] first.2 in
  first.1 = (["c1"], None)
  ∧ clients_of first.2 "c1" = ["app1"]
  ∧ second.1 = (["c1"], None)
  ∧ since (length (trace first.2)) second.2 = [GET "c1"; PATCH "c1" ["app1"]].
Proof. repeat split; by vm_compute. Qed.

(** Apart from that path the second run is quiet: when every listed
    connection either is read or has its read return an error (so that it
    is skipped), a second run after a first run without error returns an
    empty managed list and no error, sends no write and changes no list. *)
Lemma range_quiet (app : string) (enabledSet : gmap string bool)
    (all m : list string) (t : Tenant) :
  (∀ c, c ∈ all →
     (reads_ok t c = true ∧ settled app (index enabledSet c) (clients_of t c))
     ∨ ∃ cur err, read_of t c = (cur, Some err)) →
  (range_allConnections app enabledSet all m t).1 = (m, None)
  ∧ connections (range_allConnections app enabledSet all m t).2 = connections t
  ∧ ∃ evs, trace (range_allConnections app enabledSet all m t).2 = trace t ++ evs
           ∧ writes_in evs = [].
Proof.
  revert all m t. apply (range_ind app enabledSet (λ all m t r,
    (∀ c, c ∈ all →
       (reads_ok t c = true ∧ settled app (index enabledSet c) (clients_of t c))
       ∨ ∃ cur err, read_of t c = (cur, Some err)) →
    r.1 = (m, None) ∧ connections r.2 = connections t
    ∧ ∃ evs, trace r.2 = trace t ++ evs ∧ writes_in evs = [])); simpl.
  - intros m t _. split; [done|]. split; [done|]. exists []. by rewrite app_nil_r.
  - intros c all m t m1 t1 r Hit _ IH Hall.
    assert (same_setup t t1) as Hs by by eapply iteration_same_setup.
    assert (m1 = m ∧ connections t1 = connections t
            ∧ ∃ evs, trace t1 = trace t ++ evs ∧ writes_in evs = [])
      as (-> & Hconn & evs1 & Htr & Hw1).
    { destruct (Hall c) as [[Hr Hset]|(cur & err & Hread)]; [apply list_elem_of_here|..].
      - destruct (iteration_settled _ _ _ _ _ _ _ Hit Hr Hset) as [[= ->] ->].
        split; [done|]. split; [done|]. by exists [GET c].
      - inversion Hit as [? ? Hr|? Hr|? Hr|]; subst; rewrite Hread in Hr; simplify_eq.
        split; [done|]. split; [apply after_read_connections|].
        unfold after_read. destruct (url_error t c).
        + exists []. by rewrite app_nil_r.
        + by exists [GET c]. }
    destruct IH as (-> & Hconn' & evs & -> & Hw).
    { intros c' Hc'. destruct (Hall c') as [[Hr Hset]|(cur & err & Hread)];
        [by apply list_elem_of_further|..].
      - left. rewrite (reads_ok_same_setup t t1) by done. split; [done|].
        unfold clients_of. by rewrite Hconn.
      - right. exists cur, err. by eapply read_error_same_setup. }
    split; [done|]. split; [congruence|]. exists (evs1 ++ evs).
    rewrite Htr, <-app_assoc. split; [done|].
    unfold writes_in in *. by rewrite omap_app, Hw1, Hw.
  - intros c all m t m1 err t1 Hit Hall. exfalso.
    inversion Hit as [| | |cur err' Hr Hn]; subst.
    destruct (Hall c) as [[Hok Hset]|(cur' & err'' & Hread)]; [apply list_elem_of_here|..].
    + apply reads_ok_read_of in Hok as [Hok _]. rewrite Hok in Hr. simplify_eq. done.
    + rewrite Hread in Hr. simplify_eq.
Qed.

Lemma idempotent_unless_read_degraded (t : Tenant) (allConnections : list string)
    (app : string) (want : list string) (managed : list string) (t1 : Tenant) :
  (∀ c, c ∈ allConnections →
     reads_ok t c = true ∨ ∃ cur err, read_of t c = (cur, Some err)) →
  applyConnectionState allConnections app want t = ((managed, None), t1) →
  let second := applyConnectionState allConnections app want t1 in
  second.1 = ([], None)
  ∧ writes_in (since (length (trace t1)) second.2) = []
  ∧ connections second.2 = connections t1.
Proof.
  intros Hr Hrun second. subst second. unfold applyConnectionState in *.
  pose proof (range_same_setup app (make_enabledSet want) allConnections [] t) as Hs.
  rewrite Hrun in Hs. simpl in Hs.
  destruct (range_quiet app (make_enabledSet want) allConnections [] t1)
    as (Hres & Hconn & evs & Htr & Hw).
  { intros c Hc. destruct (Hr c Hc) as [Hok|(cur & err & Hread)].
    - left. rewrite (reads_ok_same_setup t t1) by done. split; [done|].
      by eapply range_settles.
    - right. exists cur, err. by eapply read_error_same_setup. }
  split; [done|]. split; [|done]. unfold since. by rewrite Htr, drop_app_length.
Qed.

(** What does hold of reads that fail: a read that
    returns an error is followed by no write, a read answered with a status
    other than 200 returns the empty list without error, and is followed by
    no write when the application is not desired there. *)
Lemma failed_read_facts (app : string) (enabledSet : gmap string bool)
    (c : string) (m : list string) (t : Tenant) :
  reads_ok t c = false →
  (∀ cur err, read_of t c = (cur, Some err) →
     loop_body app enabledSet c m t = (Continue m, after_read t c))
  ∧ (∀ cur, read_of t c = (cur, None) → cur = [])
  ∧ (∀ cur, read_of t c = (cur, None) → index enabledSet c = false →
     loop_body app enabledSet c m t = (Continue m, exchange (GET c) (connections t) t)).
Proof.
  intros Hbad. split; [|split].
  - intros cur err Hr. unfold loop_body. by rewrite getConnectionClients_eq, Hr.
  - intros cur Hr. destruct (read_of_None _ _ _ Hr) as [?|[_ ?]]; [congruence|done].
  - intros cur Hr Hidx.
    destruct (read_of_None _ _ _ Hr) as [?|[_ ->]]; [congruence|].
    unfold loop_body.
    rewrite getConnectionClients_eq, Hr, Hidx, (after_read_built _ _ _ Hr). by vm_compute.
Qed.

(** C6 (minimal writes).  For a connection the loop processes (its read
    returned no error, with list [cur]), the iteration sends a write to it
    exactly when the rebuilt list and [cur] differ as multisets; the test the
    code runs, sorting both and comparing element by element, decides that. *)
Theorem C6_minimal_writes (app : string) (enabledSet : gmap string bool)
    (c : string) (m : list string) (t : Tenant) (cur : list string) :
  read_of t c = (cur, None) →
  let next := rebuild app (index enabledSet c) cur in
  let t' := (loop_body app enabledSet c m t).2 in
  ((∃ l, PATCH c l ∈ since (length (trace t)) t') ↔ ¬ cur ≡ₚ next)
  ∧ (negb (stringSlicesEqual (sort_Strings cur) (sort_Strings next)) = true ↔ ¬ cur ≡ₚ next).
Proof.
  intros Hread next t'. split; [|apply change_detected_iff]. subst t'.
  destruct (loop_body app enabledSet c m t) as [ctl t'] eqn:Hb. simpl.
  apply loop_body_iteration in Hb. unfold since.
  destruct Hb as [cur' err Hr|cur' Hr Hs|cur' Hr Hn Hw|cur' err Hr Hn Hw];
    rewrite Hread in Hr; simplify_eq/=; rewrite <-?app_assoc, drop_app_length.
  - split; [|done]. intros [l Hl]. apply list_elem_of_singleton in Hl. done.
  - split; [done|]. intros _. eexists. apply list_elem_of_further, list_elem_of_here.
  - split; [done|]. intros _. eexists. apply list_elem_of_further, list_elem_of_here.
Qed.

Lemma C6_minimal_writes_witness :
  read_of example_tenant "c2" = (["app1"; "app2"], None)
  ∧ ((∃ l, PATCH "c2" l ∈ since (length (trace example_tenant))
                (loop_body "app1" (make_enabledSet ["c1"]) "c2" [] example_tenant).2)
     ↔ ¬ ["app1"; "app2"] ≡ₚ rebuild "app1" (index (make_enabledSet ["c1"]) "c2") ["app1"; "app2"]).
Proof.
  assert (read_of example_tenant "c2" = (["app1"; "app2"], None)) as Hread by by vm_compute.
  split; [exact Hread|].
  exact (proj1 (C6_minimal_writes "app1" (make_enabledSet ["c1"]) "c2" [] example_tenant
                  ["app1"; "app2"] Hread)).
Defined.

(** C7, as stated, fails: a duplicate in the list read from the tenant is
    written back.  The connection holds [x; x]; adding [app1] writes
    [app1; x; x]. *)
Lemma C7_duplicates_counterexample :
  let t := tenant_of [("c1", ["x"; "x"])] in
  PATCH "c1" ["app1"; "x"; "x"] ∈ trace (applyConnectionState ["c1"] "app1" ["c1"] t).2
  ∧ ¬ NoDup ["app1"; "x"; "x"].
Proof.
  split.
  - assert (trace (applyConnectionState ["c1"] "app1" ["c1"] (tenant_of [("c1", ["x"; "x"])])).2
            = [GET "c1"; PATCH "c1" ["app1"; "x"; "x"]]) as -> by by vm_compute.
    apply list_elem_of_further, list_elem_of_here.
  - intros Hnd. apply NoDup_cons in Hnd as [_ Hnd]. apply NoDup_cons in Hnd as [Hx _].
    apply Hx, list_elem_of_here.
Qed.

(** C7, amended.  In the list a write carries, the application occurs once
    when it is desired on the connection and not at all otherwise, and every
    other client occurs as often as in the list that was read; so the list
    written is free of duplicates exactly when the clients other than the
    application were free of duplicates in the list read. *)
Theorem C7_written_list_duplicates (app : string) (enabledSet : gmap string bool)
    (c : string) (m : list string) (t : Tenant) (cur : list string) (c' : string)
    (l : list string) :
  read_of t c = (cur, None) →
  PATCH c' l ∈ since (length (trace t)) (loop_body app enabledSet c m t).2 →
  c' = c
  ∧ filter (λ x, x = app) l = (if index enabledSet c then [app] else [])
  ∧ filter (λ x, x ≠ app) l ≡ₚ filter (λ x, x ≠ app) cur
  ∧ (NoDup l ↔ NoDup (filter (λ x, x ≠ app) cur)).
Proof.
  intros Hread. destruct (loop_body app enabledSet c m t) as [ctl t'] eqn:Hb. simpl.
  apply loop_body_iteration in Hb. unfold since.
  destruct (iteration_trace _ _ _ _ _ _ _ Hb)
    as [[-> _]|[[-> _]|(cur' & Hr & Hne & ->)]];
    rewrite ?drop_all, ?drop_app_length; intros Hl.
  { by apply elem_of_nil in Hl. }
  { apply list_elem_of_singleton in Hl. done. }
  rewrite Hread in Hr. simplify_eq.
  apply elem_of_cons in Hl as [?|Hl]; [done|]. apply list_elem_of_singleton in Hl.
  simplify_eq. split; [done|].
  assert (sort_Strings (rebuild app (index enabledSet c) cur')
          ≡ₚ filter (λ x, x ≠ app) cur' ++ (if index enabledSet c then [app] else [])) as Hp.
  { by rewrite sort_Strings_Permutation, rebuild_filter. }
  split; [|split].
  - assert (filter (λ x, x = app) (sort_Strings (rebuild app (index enabledSet c) cur'))
            ≡ₚ (if index enabledSet c then [app] else [])) as Hf.
    { rewrite Hp, filter_app, no_app_among_others.
      destruct (index enabledSet c); [|done].
      rewrite filter_cons. by case_decide. }
    destruct (index enabledSet c).
    + by apply Permutation_singleton_r.
    + by apply Permutation_nil_r.
  - apply others_sort_rebuild.
  - rewrite Hp, NoDup_app. split; [naive_solver|]. intros Hnd. split; [done|]. split.
    + intros x [Hx _]%list_elem_of_filter. destruct (index enabledSet c); set_solver.
    + destruct (index enabledSet c); [apply NoDup_singleton|apply NoDup_nil_2].
Qed.

Lemma C7_written_list_duplicates_witness :
  let t := tenant_of [("c1", ["x"; "x"])] in
  let es := make_enabledSet ["c1"] in
  read_of t "c1" = (["x"; "x"], None)
  ∧ PATCH "c1" ["app1"; "x"; "x"] ∈ since (length (trace t)) (loop_body "app1" es "c1" [] t).2
  ∧ filter (λ x, x = "app1") ["app1"; "x"; "x"] = (if index es "c1" then ["app1"] else [])
  ∧ (NoDup ["app1"; "x"; "x"] ↔ NoDup (filter (λ x, x ≠ "app1") ["x"; "x"])).
Proof.
  assert (read_of (tenant_of [("c1", ["x"; "x"])]) "c1" = (["x"; "x"], None)) as Hread
    by by vm_compute.
  assert (PATCH "c1" ["app1"; "x"; "x"]
          ∈ since (length (trace (tenant_of [("c1", ["x"; "x"])])))
              (loop_body "app1" (make_enabledSet ["c1"]) "c1" [] (tenant_of [("c1", ["x"; "x"])])).2)
    as Hin.
  { assert (since (length (trace (tenant_of [("c1", ["x"; "x"])])))
              (loop_body "app1" (make_enabledSet ["c1"]) "c1" [] (tenant_of [("c1", ["x"; "x"])])).2
            = [GET "c1"; PATCH "c1" ["app1"; "x"; "x"]]) as -> by by vm_compute.
    apply list_elem_of_further, list_elem_of_here. }
  destruct (C7_written_list_duplicates "app1" (make_enabledSet ["c1"]) "c1" []
              (tenant_of [("c1", ["x"; "x"])]) ["x"; "x"] "c1" ["app1"; "x"; "x"] Hread Hin)
    as (_ & Hf & _ & Hnd).
  split; [exact Hread|]. split; [exact Hin|]. split; [exact Hf|exact Hnd].
Defined.

(** C8 (write failure).  Let the connections listed before [c] be processed
    without error, leaving the tenant as [t1], and let the write to [c] then
    fail with [err].  The run on the whole list returns that failure, wrapped
    in a message that names [c], and ends there: the trace ends with the read
    and the failed write of [c], nothing is sent for the connections listed
    after it, and the lists are those of [t1], the earlier writes included. *)
Theorem C8_write_failure_aborts (app : string) (want : list string)
    (pre : list string) (c : string) (post : list string) (t : Tenant)
    (m1 : list string) (t1 : Tenant) (cur : list string) (err : error) :
  applyConnectionState pre app want t = ((m1, None), t1) →
  read_of t1 c = (cur, None) →
  let next := sort_Strings (rebuild app (bool_decide (c ∈ want)) cur) in
  ¬ cur ≡ₚ rebuild app (bool_decide (c ∈ want)) cur →
  write_error t1 c next = Some err →
  let run := applyConnectionState (pre ++ c :: post) app want t in
  run.1 = ([], Some ("failed to update connection " +:+ c +:+ ": " +:+ err))
  ∧ trace run.2 = trace t1 ++ [GET c; PATCH c next]
  ∧ connections run.2 = connections t1.
Proof.
  intros Hpre Hread next Hne Hw run. subst run next.
  unfold applyConnectionState in *. rewrite range_app, Hpre, range_cons.
  destruct (loop_body _ _ c m1 t1) as [ctl t2] eqn:Hb.
  apply loop_body_iteration in Hb. rewrite index_make_enabledSet in Hb.
  destruct Hb as [cur' err' Hr|cur' Hr Hs|cur' Hr Hn Hok|cur' err' Hr Hn Hf];
    rewrite Hread in Hr; simplify_eq/=.
  - done.
  - apply (write_error_None t1 c (sort_Strings (rebuild app (bool_decide (c ∈ want)) cur')))
      in Hok. congruence.
  - by rewrite <-app_assoc.
Qed.

Lemma C8_write_failure_aborts_witness :
  let t1 := (applyConnectionState ["c1"] "app1" ["c1"] failing_tenant).2 in
  let run := applyConnectionState (["c1"] ++ "c2" :: ["c3"]) "app1" ["c1"] failing_tenant in
  run.1 = ([], Some "failed to update connection c2: update request failed with status 500: boom")
  ∧ trace run.2 = [GET "c1"; PATCH "c1" ["app1"; "app2"]; GET "c2"; PATCH "c2" []]
  ∧ clients_of run.2 "c1" = ["app1"; "app2"]
  ∧ clients_of run.2 "c3" = ["app1"].
Proof.
  assert (applyConnectionState ["c1"] "app1" ["c1"] failing_tenant
          = ((["c1"], None), (applyConnectionState ["c1"] "app1" ["c1"] failing_tenant).2))
    as Hpre by by vm_compute.
  assert (read_of (applyConnectionState ["c1"] "app1" ["c1"] failing_tenant).2 "c2"
          = (["app1"], None)) as Hread by by vm_compute.
  assert (¬ ["app1"] ≡ₚ rebuild "app1" (bool_decide ("c2" ∈ ["c1"])) ["app1"]) as Hne.
  { intros Hp. apply Permutation_length in Hp. by vm_compute in Hp. }
  assert (write_error (applyConnectionState ["c1"] "app1" ["c1"] failing_tenant).2 "c2"
            (sort_Strings (rebuild "app1" (bool_decide ("c2" ∈ ["c1"])) ["app1"]))
          = Some "update request failed with status 500: boom") as Hw by by vm_compute.
  destruct (C8_write_failure_aborts "app1" ["c1"] ["c1"] "c2" ["c3"] failing_tenant
              ["c1"] _ ["app1"] _ Hpre Hread Hne Hw) as (Hres & Htr & Hconn).
  split; [exact Hres|]. split; [rewrite Htr; by vm_compute|].
  unfold clients_of. rewrite Hconn. split; by vm_compute.
Defined.

(** C9.  When [applyConnectionState] returns an error, the managed list it
    returns with it is nil, whatever was written before the failure. *)
Theorem C9_no_managed_list_on_error (allConnections : list string) (app : string)
    (want : list string) (t : Tenant) (err : error) :
  (applyConnectionState allConnections app want t).1.2 = Some err →
  (applyConnectionState allConnections app want t).1.1 = [].
Proof. apply range_error_nil. Qed.

Lemma C9_no_managed_list_on_error_witness :
  let run := applyConnectionState ["c1"; "c2"; "c3"] "app1" ["c1"] failing_tenant in
  run.1.2 = Some "failed to update connection c2: update request failed with status 500: boom"
  ∧ PATCH "c1" ["app1"; "app2"] ∈ trace run.2
  ∧ clients_of run.2 "c1" = ["app1"; "app2"]
  ∧ run.1.1 = [].
Proof.
  assert ((applyConnectionState ["c1"; "c2"; "c3"] "app1" ["c1"] failing_tenant).1.2
          = Some "failed to update connection c2: update request failed with status 500: boom")
    as Herr by by vm_compute.
  split; [exact Herr|]. split; [|split; [by vm_compute|]].
  - assert (trace (applyConnectionState ["c1"; "c2"; "c3"] "app1" ["c1"] failing_tenant).2
            = [GET "c1"; PATCH "c1" ["app1"; "app2"]; GET "c2"; PATCH "c2" []]) as ->
      by by vm_compute.
    apply list_elem_of_further, list_elem_of_here.
  - exact (C9_no_managed_list_on_error ["c1"; "c2"; "c3"] "app1" ["c1"] failing_tenant _ Herr).
Defined.

(** C10.  Desired connection IDs that are not in the fetched list are
    ignored: the run (result, error and tenant afterwards) is the same as
    with those IDs left out; no request is sent for a connection outside the
    list and none is reported as managed.  The managed list is a subsequence
    of the fetched list, in listing order, and so has no duplicates when the
    fetched IDs are distinct. *)
Theorem C10_unlisted_desired_ids_ignored (allConnections : list string) (app : string)
    (want : list string) (t : Tenant) :
  let run := applyConnectionState allConnections app want t in
  run = applyConnectionState allConnections app (filter (λ d, d ∈ allConnections) want) t
  ∧ (∀ d, d ∉ allConnections →
       (GET d ∉ since (length (trace t)) run.2)
       ∧ (∀ l, PATCH d l ∉ since (length (trace t)) run.2)
       ∧ (d ∉ run.1.1))
  ∧ run.1.1 `sublist_of` allConnections
  ∧ (NoDup allConnections → NoDup run.1.1).
Proof.
  intros run. subst run.
  assert ((applyConnectionState allConnections app want t).1.1 `sublist_of` allConnections)
    as Hsub.
  { unfold applyConnectionState.
    destruct ((range_allConnections app (make_enabledSet want) allConnections [] t).1.2)
      as [err|] eqn:Herr.
    - rewrite (range_error_nil _ _ _ _ _ _ Herr). apply sublist_nil_l.
    - destruct (range_managed _ _ _ _ _ Herr) as (m' & -> & Hm'). done. }
  split; [|split; [|split]].
  - unfold applyConnectionState. apply range_ext. intros c Hc.
    rewrite !index_make_enabledSet. apply bool_decide_ext.
    rewrite list_elem_of_filter. naive_solver.
  - intros d Hd. unfold applyConnectionState, since.
    destruct (range_requests app (make_enabledSet want) allConnections [] t)
      as (evs & -> & Hevs).
    rewrite drop_app_length. rewrite Forall_forall in Hevs.
    split; [|split].
    + intros Hin. by apply Hevs in Hin as [? _].
    + intros l Hin. by apply Hevs in Hin as [? _].
    + intros Hin. apply Hd. by eapply elem_of_sublist.
  - done.
  - intros Hnd. by eapply sublist_NoDup.
Qed.

Lemma C10_unlisted_desired_ids_ignored_witness :
  let run := applyConnectionState ["c1"; "c2"] "app1" ["c9"; "c1"] example_tenant in
  ("c9" ∉ ["c1"; "c2"]) ∧ NoDup ["c1"; "c2"]
  ∧ run = applyConnectionState ["c1"; "c2"] "app1" ["c1"] example_tenant
  ∧ (GET "c9" ∉ since (length (trace example_tenant)) run.2)
  ∧ ("c9" ∉ run.1.1)
  ∧ run.1.1 `sublist_of` ["c1"; "c2"]
  ∧ NoDup run.1.1.
Proof.
  assert ("c9" ∉ ["c1"; "c2"]) as Hd.
  { intros H. not_member H. }
  assert (NoDup ["c1"; "c2"]) as Hnd.
  { apply NoDup_cons. split; [intros H; not_member H|]. apply NoDup_singleton. }
  destruct (C10_unlisted_desired_ids_ignored ["c1"; "c2"] "app1" ["c9"; "c1"] example_tenant)
    as (Heq & Hreq & Hsub & Hno).
  destruct (Hreq "c9" Hd) as (Hget & _ & Hman).
  split; [exact Hd|]. split; [exact Hnd|]. split; [|by auto].
  rewrite Heq. by vm_compute.
Defined.


(** * Further properties of the code *)

(** ** The reconciliation loop *)

Section more_on_runs.
Implicit Types (t : Tenant) (c app : string) (m l cur all : list string).
Implicit Types (enabledSet : gmap string bool).

Lemma settled_iff app enabled l : settled app enabled l ↔ ¬ out_of_line app enabled l.
Proof.
  unfold settled, out_of_line. rewrite rebuild_filter. split.
  - intros Hs Hne. apply Hne.
    assert (filter (λ x, x = app) l ≡ₚ (if enabled then [app] else [])) as Hp.
    { rewrite Hs at 1. rewrite filter_app, no_app_among_others.
      destruct enabled; [|done]. rewrite filter_cons. by case_decide. }
    destruct enabled.
    + by apply Permutation_singleton_r.
    + by apply Permutation_nil_r.
  - intros Hn. apply dec_stable in Hn. rewrite <-Hn.
    rewrite (comm (++)). symmetry. apply (filter_app_complement (λ x, x = app)).
Qed.

Lemma filter_iff_on {A} (P Q : A → Prop) `{∀ x, Decision (P x)} `{∀ x, Decision (Q x)}
    (l : list A) :
  (∀ x, x ∈ l → P x ↔ Q x) → filter P l = filter Q l.
Proof.
  induction l as [|x l IH]; intros HPQ; [done|].
  rewrite !filter_cons, IH by (intros; apply HPQ; set_solver).
  destruct (HPQ x) as [? ?]; [set_solver|]. repeat case_decide; naive_solver.
Qed.

Lemma read_of_after_read t c r c' :
  read_of (exchange r (connections t) t) c' = read_of t c'.
Proof.
  unfold read_of, getConnectionClients.
  change (get_outcome (exchange r (connections t) t) c') with (get_outcome t c').
  tenant_cases; done.
Qed.

Lemma iteration_read_error app enabled c m t ctl t1 c0 cur err :
  iteration app enabled c m t ctl t1 →
  read_of t c0 = (cur, Some err) →
  clients_of t1 c0 = clients_of t c0
  ∧ ∃ evs, trace t1 = trace t ++ evs ∧ c0 ∉ writes_in evs.
Proof.
  intros Hit Hread. destruct (decide (c0 = c)) as [->|Hne].
  - inversion Hit as [? ? Hr|? Hr|? Hr|? ? Hr]; subst; rewrite Hread in Hr; simplify_eq.
    split; [unfold clients_of; by rewrite after_read_connections|].
    unfold after_read. destruct (url_error t c).
    + exists []. rewrite app_nil_r. split; [done|]. apply not_elem_of_nil.
    + exists [GET c]. split; [done|]. apply not_elem_of_nil.
  - split; [by eapply iteration_other|].
    destruct (iteration_trace _ _ _ _ _ _ _ Hit)
      as [[-> _]|[[-> _]|(cur' & _ & _ & ->)]].
    + exists []. rewrite app_nil_r. split; [done|]. apply not_elem_of_nil.
    + exists [GET c]. split; [done|]. apply not_elem_of_nil.
    + eexists. split; [done|]. simpl. set_solver.
Qed.

Lemma range_read_error app enabledSet c0 cur err all m t :
  read_of t c0 = (cur, Some err) →
  clients_of (range_allConnections app enabledSet all m t).2 c0 = clients_of t c0
  ∧ ∃ evs, trace (range_allConnections app enabledSet all m t).2 = trace t ++ evs
           ∧ c0 ∉ writes_in evs.
Proof.
  revert all m t. apply (range_ind app enabledSet (λ all m t r,
    read_of t c0 = (cur, Some err) →
    clients_of r.2 c0 = clients_of t c0
    ∧ ∃ evs, trace r.2 = trace t ++ evs ∧ c0 ∉ writes_in evs)); simpl.
  - intros m t _. split; [done|]. exists []. rewrite app_nil_r. split; [done|].
    apply not_elem_of_nil.
  - intros c all m t m1 t1 r Hit _ IH Hread.
    destruct (iteration_read_error _ _ _ _ _ _ _ _ _ _ Hit Hread) as (E & evs1 & Etr & Hw1).
    destruct IH as (E' & evs & -> & Hw).
    { eapply read_error_same_setup; [by eapply iteration_same_setup|done]. }
    split; [congruence|]. exists (evs1 ++ evs). rewrite Etr, <-app_assoc. split; [done|].
    unfold writes_in in *. rewrite omap_app, not_elem_of_app. done.
  - intros c all m t m1 err' t1 Hit Hread. by eapply iteration_read_error.
Qed.

(** Without error, a run hands over one read for every listed connection
    whose request can be built, in order, and the managed list is the list
    of the connections it wrote. *)
Lemma range_reads_writes app enabledSet all m t :
  (range_allConnections app enabledSet all m t).1.2 = None →
  ∃ evs, trace (range_allConnections app enabledSet all m t).2 = trace t ++ evs
         ∧ reads_in evs = filter (λ c, url_error t c = None) all
         ∧ (range_allConnections app enabledSet all m t).1.1 = m ++ writes_in evs.
Proof.
  revert all m t. apply (range_ind app enabledSet (λ all m t r,
    r.1.2 = None →
    ∃ evs, trace r.2 = trace t ++ evs
           ∧ reads_in evs = filter (λ c, url_error t c = None) all
           ∧ r.1.1 = m ++ writes_in evs));
    simpl.
  - intros m t _. exists []. by rewrite !app_nil_r.
  - intros c all m t m1 t1 r Hit _ IH Hnone.
    destruct (IH Hnone) as (evs & -> & Hreads & ->).
    destruct (iteration_same_setup _ _ _ _ _ _ _ Hit) as (Hu & _). rewrite Hu in Hreads.
    rewrite filter_cons, <-Hreads. unfold reads_in, writes_in.
    destruct (decide (url_error t c = None)) as [Hurl|Hurl];
      inversion Hit as [? ? Hr|? Hr|? Hr|]; subst; simpl;
      try (by destruct Hurl; eapply read_of_None_url).
    + unfold after_read. rewrite Hurl. simpl. exists (GET c :: evs).
      by rewrite <-app_assoc.
    + exists (GET c :: evs). by rewrite <-app_assoc.
    + eexists (GET c :: PATCH c _ :: evs). by rewrite <-!app_assoc.
    + unfold after_read. destruct (url_error t c); [|done]. by exists evs.
  - done.
Qed.

(** With distinct, readable connections, the managed list of a run without
    error is the list of the connections that were out of line. *)
Lemma range_managed_out_of_line app enabledSet all m t :
  NoDup all →
  (∀ c, c ∈ all → reads_ok t c = true) →
  (range_allConnections app enabledSet all m t).1.2 = None →
  (range_allConnections app enabledSet all m t).1.1
  = m ++ filter (λ c, out_of_line app (index enabledSet c) (clients_of t c)) all.
Proof.
  revert all m t. apply (range_ind app enabledSet (λ all m t r,
    NoDup all → (∀ c, c ∈ all → reads_ok t c = true) → r.1.2 = None →
    r.1.1 = m ++ filter (λ c, out_of_line app (index enabledSet c) (clients_of t c)) all));
    simpl.
  - intros m t _ _ _. by rewrite app_nil_r.
  - intros c all m t m1 t1 r Hit _ IH [Hc Hnd]%NoDup_cons Hr Hnone.
    assert (same_setup t t1) as Hs by by eapply iteration_same_setup.
    rewrite IH; [|done| |done].
    2:{ intros c' Hc'. rewrite (reads_ok_same_setup t t1) by done. apply Hr. set_solver. }
    assert (filter (λ c', out_of_line app (index enabledSet c') (clients_of t1 c')) all
            = filter (λ c', out_of_line app (index enabledSet c') (clients_of t c')) all) as ->.
    { apply filter_iff_on. intros c' Hc'.
      rewrite (iteration_other _ _ _ _ _ _ _ c' Hit); [done|]. set_solver. }
    destruct (reads_ok_read_of t c) as [Hread _]; [apply Hr; set_solver|].
    rewrite filter_cons.
    inversion Hit as [? ? Hr'|? Hr' Hset|? Hr' Hnset|]; subst;
      rewrite Hread in Hr'; simplify_eq/=.
    + apply settled_iff in Hset. by case_decide.
    + case_decide; [by rewrite <-app_assoc|].
      destruct Hnset. by apply settled_iff.
  - done.
Qed.
End more_on_runs.

(** X1.  [stringSlicesEqual] returns true exactly when the two slices have
    the same elements at the same positions; a different length or a
    different order makes it false. *)
Theorem X1_stringSlicesEqual_exact (a b : list string) :
  stringSlicesEqual a b = true ↔ a = b.
Proof. apply stringSlicesEqual_true. Qed.

(** X2.  [applyConnectionState] uses the desired connection IDs as a set:
    two lists with the same elements, in any order and with any repetitions,
    give the same result, the same requests and the same tenant. *)
Theorem X2_desired_ids_as_a_set (allConnections : list string) (app : string)
    (want want' : list string) (t : Tenant) :
  (∀ c, c ∈ want ↔ c ∈ want') →
  applyConnectionState allConnections app want t
  = applyConnectionState allConnections app want' t.
Proof.
  intros Hw. unfold applyConnectionState. apply range_ext. intros c _.
  rewrite !index_make_enabledSet. by apply bool_decide_ext.
Qed.

Lemma X2_desired_ids_as_a_set_witness :
  applyConnectionState ["c1"; "c2"] "app1" ["c2"; "c1"; "c2"] example_tenant
  = applyConnectionState ["c1"; "c2"] "app1" ["c1"; "c2"] example_tenant.
Proof.
  apply (X2_desired_ids_as_a_set ["c1"; "c2"] "app1" ["c2"; "c1"; "c2"] ["c1"; "c2"]).
  intros c. rewrite !elem_of_cons, !elem_of_nil. tauto.
Defined.

(** X3.  Whenever [applyConnectionState] returns without error, every listed
    connection whose read succeeds ends with the application among its
    enabled clients exactly when it is desired there, whatever happened to
    the reads of the other connections. *)
Theorem X3_success_aligns_readable_connections (allConnections : list string)
    (app : string) (want : list string) (t : Tenant) (managed : list string) (t' : Tenant)
    (c : string) :
  applyConnectionState allConnections app want t = ((managed, None), t') →
  c ∈ allConnections →
  reads_ok t c = true →
  app ∈ clients_of t' c ↔ c ∈ want.
Proof.
  unfold applyConnectionState. intros Hrun Hc Hr.
  rewrite (settled_elem_of app (index (make_enabledSet want) c)).
  - by rewrite index_make_enabledSet, bool_decide_eq_true.
  - by eapply range_settles.
Qed.

Lemma X3_success_aligns_readable_connections_witness :
  let t := with_get_fault "c1" (ReadDoFails "timeout") example_tenant in
  let run := applyConnectionState ["c1"; "c2"] "app1" ["c1"] t in
  run.1 = (["c2"], None)
  ∧ ("app1" ∈ clients_of run.2 "c2" ↔ "c2" ∈ ["c1"]).
Proof.
  assert (applyConnectionState ["c1"; "c2"] "app1" ["c1"]
            (with_get_fault "c1" (ReadDoFails "timeout") example_tenant)
          = ((["c2"], None),
             (applyConnectionState ["c1"; "c2"] "app1" ["c1"]
                (with_get_fault "c1" (ReadDoFails "timeout") example_tenant)).2)) as Hrun
    by by vm_compute.
  split; [by vm_compute|].
  apply (X3_success_aligns_readable_connections _ _ _ _ _ _ "c2" Hrun).
  - apply list_elem_of_further, list_elem_of_here.
  - by vm_compute.
Defined.

(** X4.  A connection whose read returns an error (the request could not be
    built or sent, or the body did not decode) is left alone by the whole
    run: no write is sent to it and its list is unchanged. *)
Theorem X4_read_error_connection_untouched (allConnections : list string)
    (app : string) (want : list string) (t : Tenant) (c : string)
    (cur : list string) (err : error) :
  read_of t c = (cur, Some err) →
  let run := applyConnectionState allConnections app want t in
  clients_of run.2 c = clients_of t c
  ∧ c ∉ writes_in (since (length (trace t)) run.2).
Proof.
  intros Hread run. subst run. unfold applyConnectionState, since.
  destruct (range_read_error app (make_enabledSet want) c cur err allConnections [] t Hread)
    as (E & evs & -> & Hw).
  by rewrite drop_app_length.
Qed.

Lemma X4_read_error_connection_untouched_witness :
  let t := with_get_fault "c1" (ReadDoFails "timeout") example_tenant in
  let run := applyConnectionState ["c1"; "c2"] "app1" ["c1"] t in
  read_of t "c1" = ([], Some "failed to make connection request: timeout")
  ∧ clients_of run.2 "c1" = ["app2"]
  ∧ "c1" ∉ writes_in (since (length (trace t)) run.2).
Proof.
  assert (read_of (with_get_fault "c1" (ReadDoFails "timeout") example_tenant) "c1"
          = ([], Some "failed to make connection request: timeout")) as Hread by by vm_compute.
  destruct (X4_read_error_connection_untouched ["c1"; "c2"] "app1" ["c1"] _ "c1" _ _ Hread)
    as [E Hw].
  split; [exact Hread|]. split; [rewrite E; by vm_compute|exact Hw].
Defined.

(** X5.  When the listed IDs are distinct and every listed connection is
    read, the managed list of a run without error consists, in listing
    order, of the connections in which the application did not occur the
    desired number of times (once if desired, not at all otherwise). *)
Theorem X5_managed_are_the_out_of_line (allConnections : list string) (app : string)
    (want : list string) (t : Tenant) (managed : list string) (t' : Tenant) :
  NoDup allConnections →
  (∀ c, c ∈ allConnections → reads_ok t c = true) →
  applyConnectionState allConnections app want t = ((managed, None), t') →
  managed
  = filter (λ c, out_of_line app (bool_decide (c ∈ want)) (clients_of t c)) allConnections.
Proof.
  unfold applyConnectionState. intros Hnd Hr Hrun.
  pose proof (range_managed_out_of_line app (make_enabledSet want) allConnections [] t Hnd Hr)
    as Hm.
  rewrite Hrun in Hm. simpl in Hm. rewrite Hm by done.
  apply filter_iff_on. intros c _. by rewrite index_make_enabledSet.
Qed.

Lemma X5_managed_are_the_out_of_line_witness :
  let t := tenant_of [("c1", ["app1"; "app2"]); ("c2", ["app1"; "app1"]); ("c3", ["app1"])] in
  (applyConnectionState ["c1"; "c2"; "c3"] "app1" ["c1"; "c2"] t).1 = (["c2"; "c3"], None)
  ∧ ["c2"; "c3"]
    = filter (λ c, out_of_line "app1" (bool_decide (c ∈ ["c1"; "c2"])) (clients_of t c))
        ["c1"; "c2"; "c3"].
Proof.
  assert (NoDup ["c1"; "c2"; "c3"]) as Hnd.
  { repeat (apply NoDup_cons; split; [intros H; not_member H|]). apply NoDup_nil_2. }
  assert (∀ c, c ∈ ["c1"; "c2"; "c3"] →
            reads_ok (tenant_of [("c1", ["app1"; "app2"]); ("c2", ["app1"; "app1"]);
                                 ("c3", ["app1"])]) c = true) as Hr.
  { intros c Hc. members Hc; by vm_compute. }
  assert (applyConnectionState ["c1"; "c2"; "c3"] "app1" ["c1"; "c2"]
            (tenant_of [("c1", ["app1"; "app2"]); ("c2", ["app1"; "app1"]); ("c3", ["app1"])])
          = ((["c2"; "c3"], None),
             (applyConnectionState ["c1"; "c2"; "c3"] "app1" ["c1"; "c2"]
                (tenant_of [("c1", ["app1"; "app2"]); ("c2", ["app1"; "app1"]);
                            ("c3", ["app1"])])).2)) as Hrun by by vm_compute.
  split; [by vm_compute|].
  exact (X5_managed_are_the_out_of_line _ _ _ _ _ _ Hnd Hr Hrun).
Defined.

(** X6.  A run of [applyConnectionState] that returns no error has sent
    one read for each listed connection whose request could be built, in
    listing order, and none for a connection whose request could not be
    built; the managed list it returns is the list of the connections it
    sent a write to, in the order of the writes. *)
Theorem X6_managed_are_the_written (allConnections : list string) (app : string)
    (want : list string) (t : Tenant) (managed : list string) (t' : Tenant) :
  applyConnectionState allConnections app want t = ((managed, None), t') →
  reads_in (since (length (trace t)) t')
  = filter (λ c, url_error t c = None) allConnections
  ∧ writes_in (since (length (trace t)) t') = managed.
Proof.
  unfold applyConnectionState, since. intros Hrun.
  pose proof (range_reads_writes app (make_enabledSet want) allConnections [] t) as H.
  rewrite Hrun in H. simpl in H. destruct H as (evs & -> & Hreads & ->); [done|].
  by rewrite drop_app_length.
Qed.

Lemma X6_managed_are_the_written_witness :
  let t := with_url_error "%zz" "invalid URL escape" example_tenant in
  let run := applyConnectionState ["%zz"; "c1"; "c2"] "app1" ["c1"] t in
  run.1 = (["c1"; "c2"], None)
  ∧ since (length (trace t)) run.2
    = [GET "c1"; PATCH "c1" ["app1"; "app2"]; GET "c2"; PATCH "c2" ["app2"]]
  ∧ reads_in (since (length (trace t)) run.2)
    = filter (λ c, url_error t c = None) ["%zz"; "c1"; "c2"]
  ∧ writes_in (since (length (trace t)) run.2) = ["c1"; "c2"].
Proof.
  assert (applyConnectionState ["%zz"; "c1"; "c2"] "app1" ["c1"]
            (with_url_error "%zz" "invalid URL escape" example_tenant)
          = ((["c1"; "c2"], None),
             (applyConnectionState ["%zz"; "c1"; "c2"] "app1" ["c1"]
                (with_url_error "%zz" "invalid URL escape" example_tenant)).2)) as Hrun
    by by vm_compute.
  split; [by vm_compute|]. split; [by vm_compute|].
  exact (X6_managed_are_the_written _ _ _ _ _ _ Hrun).
Defined.

(** ** Reading back the current state *)

Section resource.
Import ApplicationConnectionsResource.
Implicit Types (t : Tenant) (a : Auth0) (r : Auth0Client.t) (c app : string).
Implicit Types (ids clients acc : list string).

Lemma range_clients_spec app c clients acc :
  range_clients app c clients acc = if bool_decide (app ∈ clients) then acc ++ [c] else acc.
Proof.
  induction clients as [|x clients IH].
  - rewrite bool_decide_eq_false_2; [done|]. apply not_elem_of_nil.
  - change (range_clients app c (x :: clients) acc)
      with (if bool_decide (x = app) then acc ++ [c] else range_clients app c clients acc).
    destruct (decide (x = app)) as [->|Hne].
    + rewrite !bool_decide_eq_true_2; [done|apply list_elem_of_here|done].
    + rewrite bool_decide_eq_false_2 by done.
      rewrite IH. apply (f_equal (λ b : bool, if b then acc ++ [c] else acc)).
      apply bool_decide_ext. rewrite elem_of_cons. naive_solver.
Qed.

Lemma seen_enabled_after_read app t (q : request) c :
  seen_enabled app (exchange q (connections t) t) c = seen_enabled app t c.
Proof. unfold seen_enabled. by rewrite read_of_after_read. Qed.

(** A connection is seen enabled when its read succeeds and the list the
    tenant holds for it has the application. *)
Lemma seen_enabled_iff app t c :
  seen_enabled app t c = true ↔ reads_ok t c = true ∧ app ∈ clients_of t c.
Proof.
  unfold seen_enabled. destruct (read_of t c) as [cur [err|]] eqn:Hread.
  - split; [done|]. intros [Hr _]. apply reads_ok_read_of in Hr as [Hr _]. congruence.
  - rewrite bool_decide_eq_true. destruct (read_of_None _ _ _ Hread) as [Hr|[Hr ->]].
    + destruct (reads_ok_read_of _ _ Hr) as [Hr' _]. rewrite Hread in Hr'. simplify_eq.
      naive_solver.
    + split; [by intros ?%elem_of_nil|]. intros [? _]. congruence.
Qed.

Lemma seen_enabled_after app t c c' :
  seen_enabled app (after_read t c) c' = seen_enabled app t c'.
Proof.
  unfold after_read. destruct (url_error t c); [done|]. apply seen_enabled_after_read.
Qed.

Lemma range_connections_spec app ids acc t :
  range_connections app ids acc t
  = (acc ++ filter (λ c, seen_enabled app t c) ids,
     {| connections := connections t; url_error := url_error t; get_fault := get_fault t;
        patch_fault := patch_fault t;
        trace := trace t ++ (GET <$> filter (λ c, url_error t c = None) ids) |}).
Proof.
  revert acc t. induction ids as [|c ids IH]; intros acc t; simpl.
  - rewrite !app_nil_r. by destruct t.
  - rewrite getConnectionClients_eq, !filter_cons.
    assert (Hs := eq_refl (seen_enabled app t c)). unfold seen_enabled at 2 in Hs.
    assert (filter (λ c', seen_enabled app (after_read t c) c') ids
            = filter (λ c', seen_enabled app t c') ids) as Hf.
    { apply filter_iff_on. intros c' _. by rewrite seen_enabled_after. }
    assert (range_connections app ids
              (if seen_enabled app t c then acc ++ [c] else acc) (after_read t c)
            = (acc ++ (if decide (seen_enabled app t c)
                       then c :: filter (λ c', seen_enabled app t c') ids
                       else filter (λ c', seen_enabled app t c') ids),
               {| connections := connections t; url_error := url_error t;
                  get_fault := get_fault t; patch_fault := patch_fault t;
                  trace := trace t
                           ++ (GET <$> (if decide (url_error t c = None)
                                        then c :: filter (λ c', url_error t c' = None) ids
                                        else filter (λ c', url_error t c' = None) ids)) |}))
      as Hgoal.
    { rewrite IH, Hf. unfold after_read.
      destruct (url_error t c) eqn:Hurl; simpl;
        destruct (seen_enabled app t c); simpl; by rewrite <-?app_assoc. }
    destruct (seen_enabled app t c); destruct (read_of t c) as [clients [err|]];
      simplify_eq/=; rewrite ?range_clients_spec, <-?Hs; exact Hgoal.
Qed.

Lemma fetched_ids (connections : list Auth0Connection.t) (acc : list string) :
  foldl (λ connectionIds conn, connectionIds ++ [Auth0Connection.Id conn]) acc connections
  = acc ++ (Auth0Connection.Id <$> connections).
Proof.
  revert acc. induction connections as [|conn l IH]; intros acc; simpl.
  - by rewrite app_nil_r.
  - by rewrite IH, <-app_assoc.
Qed.
End resource.

Section resource_properties.
Import ApplicationConnectionsResource.
Implicit Types (t : Tenant) (a : Auth0) (r : Auth0Client.t) (c app : string).


Lemma reads_in_reads (ids : list string) : reads_in (GET <$> ids) = ids.
Proof.
  induction ids as [|c ids IH]; [done|].
  change (reads_in (GET <$> c :: ids)) with (c :: reads_in (GET <$> ids)). by rewrite IH.
Qed.

Lemma run_aligns_readable all app (want managed : list string) t t' c :
  applyConnectionState all app want t = ((managed, None), t') →
  c ∈ all → reads_ok t c = true → app ∈ clients_of t' c ↔ c ∈ want.
Proof.
  unfold applyConnectionState. intros Hrun Hc Hr.
  rewrite (settled_elem_of app (index (make_enabledSet want) c)).
  - by rewrite index_make_enabledSet, bool_decide_eq_true.
  - by eapply range_settles.
Qed.


(** X8.  When the listing succeeds, [getCurrentConnectionState] returns, in
    listing order, the listed connections whose read succeeds and whose list
    holds the application; a connection whose read returns an error or a
    status other than 200 is left out without any error.  When the listing
    fails, its error is returned as it is and nothing is read. *)
Theorem X8_current_state_result r (accessToken app : string) a :
  let run := getCurrentConnectionState r accessToken app a in
  match fetchAllConnections r accessToken a with
  | (ids, None) =>
      run.1 = (filter (λ c, reads_ok (tenant a) c = true ∧ app ∈ clients_of (tenant a) c) ids,
               None)
  | (_, Some err) => run.1 = ([], Some err) ∧ run.2 = tenant a
  end.
Proof.
  unfold getCurrentConnectionState.
  destruct (fetchAllConnections r accessToken a) as [ids [err|]]; simpl; [done|].
  rewrite range_connections_spec. simpl. f_equal.
  apply filter_iff_on. intros c _. by rewrite <-seen_enabled_iff, Is_true_true.
Qed.

Lemma getAccessToken_with_tenant r t a :
  getAccessToken r (with_tenant t a) = getAccessToken r a.
Proof. done. Qed.

Lemma fetchAllConnections_with_tenant r tok t a :
  fetchAllConnections r tok (with_tenant t a) = fetchAllConnections r tok a.
Proof. done. Qed.

(** What [Read] saves after a run of [applyConnectionState] without error
    over the same listing, when every listed connection can be read. *)
Lemma Read_after_run r data a tok all (want managed : list string) t1 :
  getAccessToken r a = (tok, None) →
  fetchAllConnections r tok a = (all, None) →
  (∀ c, c ∈ all → reads_ok (tenant a) c = true) →
  applyConnectionState all (ApplicationId data) want (tenant a) = ((managed, None), t1) →
  (Read r data (with_tenant t1 a)).1
  = Saved {| Id := Id data; ApplicationId := ApplicationId data;
             EnabledConnectionIds := EnabledConnectionIds data;
             ManagedConnectionIds := filter (λ c, c ∈ want) all |}.
Proof.
  intros Htok Hall Hr Hrun. unfold Read.
  rewrite getAccessToken_with_tenant, Htok.
  pose proof (X8_current_state_result r tok (ApplicationId data) (with_tenant t1 a)) as H.
  rewrite fetchAllConnections_with_tenant, Hall in H. simpl in H.
  destruct (getCurrentConnectionState _ _ _ _) as [[cs err] t2]. simpl in H.
  injection H as -> ->. simpl. do 2 f_equal.
  apply filter_iff_on. intros c Hc.
  assert (same_setup (tenant a) t1) as Hs.
  { pose proof (range_same_setup (ApplicationId data) (make_enabledSet want) all []
                  (tenant a)) as Hs.
    unfold applyConnectionState in Hrun. by rewrite Hrun in Hs. }
  rewrite (reads_ok_same_setup _ _ _ Hs), (Hr c Hc).
  rewrite (run_aligns_readable _ _ _ _ _ _ c Hrun Hc (Hr c Hc)).
  naive_solver.
Qed.
Lemma filter_wanting_none (all : list string) : filter (λ c, c ∈ @nil string) all = [].
Proof.
  induction all as [|c all IH]; [done|].
  rewrite filter_cons. case_decide as Hc; [by apply elem_of_nil in Hc|done].
Qed.

(** X9.  Refreshing after a create: when [Create] has saved its state and
    every listed connection can be read, a [Read] on the tenant it left
    saves, as managed connection IDs, the listed connections that are in the
    desired list, in listing order (and no longer the connections [Create]
    changed). *)
Theorem X9_read_after_create r data a (tok : string) (all : list string) st t1 :
  getAccessToken r a = (tok, None) →
  fetchAllConnections r tok a = (all, None) →
  (∀ c, c ∈ all → reads_ok (tenant a) c = true) →
  Create r data a = (Saved st, t1) →
  (Read r st (with_tenant t1 a)).1
  = Saved {| Id := StringValue (ApplicationId data);
             ApplicationId := ApplicationId data;
             EnabledConnectionIds := EnabledConnectionIds data;
             ManagedConnectionIds := filter (λ c, c ∈ EnabledConnectionIds data) all |}.
Proof.
  intros Htok Hall Hr. unfold Create. rewrite Htok, Hall.
  destruct (applyConnectionState _ _ _ _) as [[managed [err|]] t'] eqn:Hrun; [done|].
  intros [= <- <-].
  by rewrite (Read_after_run r _ a tok all (EnabledConnectionIds data) managed t').
Qed.

Lemma X9_read_after_create_witness :
  let data := {| Id := StringUnknown; ApplicationId := "app1";
                 EnabledConnectionIds := ["c1"]; ManagedConnectionIds := [] |} in
  let created := Create example_client data example_account in
  created.1 = Saved {| Id := StringValue "app1"; ApplicationId := "app1";
                       EnabledConnectionIds := ["c1"];
                       ManagedConnectionIds := ["c1"; "c2"] |}
  ∧ (Read example_client
       {| Id := StringValue "app1"; ApplicationId := "app1";
          EnabledConnectionIds := ["c1"]; ManagedConnectionIds := ["c1"; "c2"] |}
       (with_tenant created.2 example_account)).1
    = Saved {| Id := StringValue "app1"; ApplicationId := "app1";
               EnabledConnectionIds := ["c1"]; ManagedConnectionIds := ["c1"] |}.
Proof.
  assert (getAccessToken example_client example_account = ("token", None)) as Htok
    by by vm_compute.
  assert (fetchAllConnections example_client "token" example_account = (["c1"; "c2"], None))
    as Hall by by vm_compute.
  assert (∀ c, c ∈ ["c1"; "c2"] → reads_ok (tenant example_account) c = true) as Hr.
  { intros c Hc. members Hc; by vm_compute. }
  split; [by vm_compute|].
  rewrite (X9_read_after_create example_client
             {| Id := StringUnknown; ApplicationId := "app1";
                EnabledConnectionIds := ["c1"]; ManagedConnectionIds := [] |}
             example_account "token" ["c1"; "c2"] _ _ Htok Hall Hr); by vm_compute.
Defined.

(** X10.  Refreshing after a delete: when [Delete] adds no error and every
    listed connection can be read, the application is in none of the listed
    connections afterwards, and a [Read] on the tenant it left adds no error
    and finds no connection to report: the slice of managed connection IDs
    it hands to [types.ListValueFrom] has no element, the other attributes
    being those of the prior state. *)
Theorem X10_read_after_delete r data a (tok : string) (all : list string) t1 :
  getAccessToken r a = (tok, None) →
  fetchAllConnections r tok a = (all, None) →
  (∀ c, c ∈ all → reads_ok (tenant a) c = true) →
  Delete r data a = (None, t1) →
  (∀ c, c ∈ all → ApplicationId data ∉ clients_of t1 c)
  ∧ (Read r data (with_tenant t1 a)).1
    = Saved {| Id := Id data; ApplicationId := ApplicationId data;
               EnabledConnectionIds := EnabledConnectionIds data;
               ManagedConnectionIds := [] |}.
Proof.
  intros Htok Hall Hr. unfold Delete. rewrite Htok, Hall.
  destruct (applyConnectionState _ _ _ _) as [[managed [err|]] t'] eqn:Hrun; [done|].
  intros [= <-]. split.
  - intros c Hc Hin.
    apply (run_aligns_readable _ _ _ _ _ _ c Hrun Hc (Hr c Hc)) in Hin.
    by apply elem_of_nil in Hin.
  - rewrite (Read_after_run r data a tok all [] managed t') by done.
    do 2 f_equal. apply filter_wanting_none.
Qed.
Lemma X10_read_after_delete_witness :
  let data := {| Id := StringValue "app1"; ApplicationId := "app1";
                 EnabledConnectionIds := ["c2"]; ManagedConnectionIds := ["c2"] |} in
  let deleted := Delete example_client data example_account in
  deleted.1 = None
  ∧ clients_of deleted.2 "c2" = ["app2"]
  ∧ (Read example_client data (with_tenant deleted.2 example_account)).1
    = Saved {| Id := StringValue "app1"; ApplicationId := "app1";
               EnabledConnectionIds := ["c2"]; ManagedConnectionIds := [] |}.
Proof.
  assert (getAccessToken example_client example_account = ("token", None)) as Htok
    by by vm_compute.
  assert (fetchAllConnections example_client "token" example_account = (["c1"; "c2"], None))
    as Hall by by vm_compute.
  assert (∀ c, c ∈ ["c1"; "c2"] → reads_ok (tenant example_account) c = true) as Hr.
  { intros c Hc. members Hc; by vm_compute. }
  assert (Delete example_client
            {| Id := StringValue "app1"; ApplicationId := "app1";
               EnabledConnectionIds := ["c2"]; ManagedConnectionIds := ["c2"] |}
            example_account
          = (None, (Delete example_client
                      {| Id := StringValue "app1"; ApplicationId := "app1";
                         EnabledConnectionIds := ["c2"]; ManagedConnectionIds := ["c2"] |}
                      example_account).2)) as Hdel by by vm_compute.
  split; [by vm_compute|]. split; [by vm_compute|].
  exact (proj2 (X10_read_after_delete example_client _ example_account "token" ["c1"; "c2"] _
                  Htok Hall Hr Hdel)).
Defined.

(** X11.  When the token request or the connection listing fails, [Create],
    [Update] and [Delete] stop with an error before anything is applied: no
    request goes to any connection and the tenant is as it was. *)
Theorem X11_nothing_applied_without_listing r data a :
  (getAccessToken r a).2 ≠ None
  ∨ (fetchAllConnections r (getAccessToken r a).1 a).2 ≠ None →
  (∃ d, Create r data a = (Failed d, tenant a))
  ∧ (∃ d, Update r data a = (Failed d, tenant a))
  ∧ (∃ d, Delete r data a = (Some d, tenant a)).
Proof.
  unfold Create, Update, Delete, AddError.
  destruct (getAccessToken r a) as [tok [err|]]; simpl.
  { intros _. repeat split; by eexists. }
  destruct (fetchAllConnections r tok a) as [all [err|]]; simpl.
  { intros _. repeat split; by eexists. }
  intros [?|?]; done.
Qed.

Lemma X11_nothing_applied_without_listing_witness :
  (fetchAllConnections example_client
     (getAccessToken example_client unauthorized_account).1 unauthorized_account).2
  = Some "connections request failed with status 401: Unauthorized"
  ∧ ∃ d, Create example_client
           {| Id := StringUnknown; ApplicationId := "app1";
              EnabledConnectionIds := ["c1"]; ManagedConnectionIds := [] |}
           unauthorized_account
         = (Failed d, tenant unauthorized_account).
Proof.
  assert ((fetchAllConnections example_client
             (getAccessToken example_client unauthorized_account).1 unauthorized_account).2
          = Some "connections request failed with status 401: Unauthorized") as Hlist
    by by vm_compute.
  split; [exact Hlist|].
  refine (proj1 (X11_nothing_applied_without_listing example_client _ unauthorized_account _)).
  right. by rewrite Hlist.
Defined.

(** X12.  The resource and the data source list the same connections:
    [fetchAllConnections] returns the IDs, in the same order, of the
    connections [fetchConnections] returns for the same client and token,
    and fails exactly when it fails, with the same error. *)
Theorem X12_resource_lists_what_data_source_lists r (accessToken : string) a :
  fetchAllConnections r accessToken a
  = (Auth0Connection.Id <$> (ConnectionsDataSource.fetchConnections r accessToken a).1,
     (ConnectionsDataSource.fetchConnections r accessToken a).2).
Proof.
  unfold fetchAllConnections, ConnectionsDataSource.fetchConnections.
  destruct (list_connections a _ accessToken) as [err|err|code [raw_ [err|conns]]];
    try done; simpl; destruct (negb (code =? http_StatusOK)); try done.
  by rewrite fetched_ids.
Qed.

Lemma string_app_assoc (s1 s2 s3 : string) : s1 +:+ s2 +:+ s3 = (s1 +:+ s2) +:+ s3.
Proof.
  induction s1 as [|x s1 IH]; [done|].
  change (String x (s1 +:+ s2 +:+ s3) = String x ((s1 +:+ s2) +:+ s3)). by rewrite IH.
Qed.

(** X13.  The resource's [getAccessToken] writes the client ID and secret
    into the form body as they are: a client ID that ends in
    [&client_secret=x] sends the same request, and gets the same answer,
    as the shorter ID with a secret that starts with [x&client_secret=]. *)
Theorem X13_token_form_not_escaped (domain id x secret : string) a :
  getAccessToken
    {| Auth0Client.Domain := domain;
       Auth0Client.ClientId := id +:+ "&client_secret=" +:+ x;
       Auth0Client.ClientSecret := secret |} a
  = getAccessToken
      {| Auth0Client.Domain := domain;
         Auth0Client.ClientId := id;
         Auth0Client.ClientSecret := x +:+ "&client_secret=" +:+ secret |} a.
Proof.
  unfold getAccessToken, token_form. cbn [Auth0Client.Domain Auth0Client.ClientId
                                          Auth0Client.ClientSecret].
  assert (∀ rest : string,
            "grant_type=client_credentials&client_id="
            +:+ (id +:+ "&client_secret=" +:+ x) +:+ "&client_secret=" +:+ secret +:+ rest
            = "grant_type=client_credentials&client_id="
              +:+ id +:+ "&client_secret=" +:+ (x +:+ "&client_secret=" +:+ secret) +:+ rest)
    as ->; [|done].
  intros rest. by rewrite !string_app_assoc.
Qed.
End resource_properties.

(** ** The data source *)

Section data_source.
Import ConnectionsDataSource.
Implicit Types (connections l : list Auth0Connection.t) (conn : Auth0Connection.t).

Lemma convert_app l conn :
  convert (l ++ [conn])
  = (let '(connectionModels, connectionIds, connectionMap) := convert l in
     (connectionModels ++ [ {| Id := StringValue (Auth0Connection.Id conn);
                               Name := StringValue (Auth0Connection.Name conn);
                               Strategy := StringValue (Auth0Connection.Strategy conn);
                               DisplayName := StringValue (Auth0Connection.DisplayName conn);
                               Enabled := BoolValue (Auth0Connection.Enabled conn) |} ],
      connectionIds ++ [Auth0Connection.Id conn],
      <[Auth0Connection.Name conn := Auth0Connection.Id conn]> connectionMap)).
Proof. unfold convert. rewrite foldl_snoc. by destruct (foldl _ _ l) as [[? ?] ?]. Qed.

Lemma convert_lookup l (name : string) :
  (convert l).2 !! name
  = last (Auth0Connection.Id <$> filter (λ conn, Auth0Connection.Name conn = name) l).
Proof.
  induction l as [|conn l IH] using rev_ind; [done|].
  rewrite convert_app. destruct (convert l) as [[models ids] m]. simpl in *.
  rewrite filter_app, fmap_app, filter_cons, filter_nil.
  destruct (decide (Auth0Connection.Name conn = name)) as [<-|Hne].
  - change (Auth0Connection.Id <$> [conn]) with [Auth0Connection.Id conn].
    by rewrite lookup_insert_eq, last_snoc.
  - change (Auth0Connection.Id <$> []) with (@nil string).
    by rewrite lookup_insert_ne, app_nil_r.
Qed.

Lemma convert_is_Some l (name : string) :
  is_Some ((convert l).2 !! name) ↔ name ∈ Auth0Connection.Name <$> l.
Proof.
  induction l as [|conn l IH] using rev_ind.
  - split; [by intros [? ?]|by intros ?%elem_of_nil].
  - rewrite convert_app. destruct (convert l) as [[models ids] m]. simpl in *.
    rewrite lookup_insert_is_Some, IH, fmap_app, elem_of_app.
    change (Auth0Connection.Name <$> [conn]) with [Auth0Connection.Name conn].
    rewrite list_elem_of_singleton.
    destruct (decide (Auth0Connection.Name conn = name)); naive_solver.
Qed.

Lemma convert_size l :
  (NoDup (Auth0Connection.Name <$> l) → size (convert l).2 = length l)
  ∧ (¬ NoDup (Auth0Connection.Name <$> l) → size (convert l).2 < length l)%nat.
Proof.
  induction l as [|conn l [IHeq IHlt]] using rev_ind.
  - split; [done|]. intros H. destruct H. apply NoDup_nil_2.
  - pose proof (convert_is_Some l (Auth0Connection.Name conn)) as Hsome.
    rewrite convert_app. destruct (convert l) as [[models ids] m]. simpl in *.
    rewrite fmap_app, NoDup_app, length_app, map_size_insert.
    change (Auth0Connection.Name <$> [conn]) with [Auth0Connection.Name conn]. simpl.
    assert (size m ≤ length l)%nat as Hle.
    { destruct (decide (NoDup (Auth0Connection.Name <$> l))) as [Hnd|Hnd];
        [rewrite IHeq by done; lia|specialize (IHlt Hnd); lia]. }
    split.
    + intros (Hnd & Hnotin & _). specialize (IHeq Hnd).
      destruct (m !! Auth0Connection.Name conn) eqn:Hl; unfold id; [|lia].
      exfalso. eapply Hnotin; [|apply list_elem_of_here].
      apply Hsome. rewrite ?Hl. eauto.
    + intros Hn. destruct (m !! Auth0Connection.Name conn) eqn:Hl; unfold id; [lia|].
      destruct (decide (NoDup (Auth0Connection.Name <$> l))) as [Hnd|Hnd];
        [|specialize (IHlt Hnd); lia].
      destruct Hn. split; [done|]. split; [|apply NoDup_singleton].
      intros name Hin ->%list_elem_of_singleton.
      apply Hsome in Hin. rewrite ?Hl in Hin. by destruct Hin.
Qed.

Lemma convert_ids l : (convert l).1.2 = Auth0Connection.Id <$> l.
Proof.
  induction l as [|conn l IH] using rev_ind; [done|].
  rewrite convert_app. destruct (convert l) as [[models ids] m]. simpl in *.
  by rewrite fmap_app, IH.
Qed.

(** X14.  The conversion loop of the data source's [Read] keeps its outputs
    aligned with the fetched list: one model per connection, in order, every
    attribute a known value taken from the connection, and [connection_ids]
    the IDs in the same order. *)
Theorem X14_convert_follows_the_listing connections :
  (convert connections).1.1
  = (λ conn, {| Id := StringValue (Auth0Connection.Id conn);
                Name := StringValue (Auth0Connection.Name conn);
                Strategy := StringValue (Auth0Connection.Strategy conn);
                DisplayName := StringValue (Auth0Connection.DisplayName conn);
                Enabled := BoolValue (Auth0Connection.Enabled conn) |}) <$> connections
  ∧ (convert connections).1.2 = Auth0Connection.Id <$> connections.
Proof.
  induction connections as [|conn l [IHm IHi]] using rev_ind; [done|].
  rewrite convert_app. destruct (convert l) as [[models ids] m]. simpl in *.
  by rewrite !fmap_app, IHm, IHi.
Qed.

(** X15.  [connection_map] maps a name to the ID of the last listed
    connection with that name, and has no entry for a name that no listed
    connection has: of two connections with one name, the later one wins. *)
Theorem X15_connection_map_last_wins connections (name : string) :
  (convert connections).2 !! name
  = last (Auth0Connection.Id <$> filter (λ conn, Auth0Connection.Name conn = name) connections).
Proof. apply convert_lookup. Qed.

(** X16.  [connection_map] never has more entries than there are listed
    connections, and has as many exactly when the listed names are
    distinct: every repeated name costs an entry, while [connection_ids]
    keeps them all. *)
Theorem X16_connection_map_size connections :
  (size (convert connections).2 ≤ length connections)%nat
  ∧ (size (convert connections).2 = length connections
     ↔ NoDup (Auth0Connection.Name <$> connections))
  ∧ length (convert connections).1.2 = length connections.
Proof.
  destruct (convert_size connections) as [Heq Hlt].
  pose proof (convert_ids connections) as Hids.
  destruct (decide (NoDup (Auth0Connection.Name <$> connections))) as [Hnd|Hnd].
  - rewrite Heq, Hids, length_fmap by done. naive_solver.
  - specialize (Hlt Hnd). rewrite Hids, length_fmap. split; [lia|]. split; [|done].
    split; [lia|done].
Qed.
End data_source.

(** ** The provider *)

Section provider.
Import Auth0ConnectionsProvider.

(** X17.  [Configure] hands a client to the data sources and resources
    exactly when reading the configuration added no error and the domain,
    client ID and client secret are all known values; the client carries the
    three values as they are, the empty string included, and no error is
    added.  Otherwise, unless reading the configuration already failed, it
    adds exactly one error. *)
Theorem X17_configure_needs_three_known_values (has_error : bool) (config : Model)
    (client : Auth0Client.t) :
  ((Configure has_error config).2 = Some client
   ↔ has_error = false
     ∧ config = {| Domain := StringValue (Auth0Client.Domain client);
                   ClientId := StringValue (Auth0Client.ClientId client);
                   ClientSecret := StringValue (Auth0Client.ClientSecret client) |})
  ∧ (is_Some (Configure has_error config).2 → (Configure has_error config).1 = [])
  ∧ ((Configure has_error config).2 = None → has_error = false →
     length (Configure has_error config).1 = 1%nat).
Proof.
  destruct config as [[| |d] [| |i] [| |s]], has_error, client as [d' i' s'];
    unfold Configure; simpl; (split; [|split]); try done;
    try (split; [done|by intros [? ?]]); try (by intros [? ?]).
  split; [by intros [= -> -> ->]|by intros [_ [= -> -> ->]]].
Qed.
End provider.

(** ** The requests of any run *)

Lemma follows_listing_setup (t t' : Tenant) (all : list string) (evs : list request) :
  url_error t' = url_error t → follows_listing t' all evs → follows_listing t all evs.
Proof.
  intros Hu.
  induction 1 as [|c all evs Hc _ IH|c all evs Hc _ IH|c l all evs Hc _ IH|c l all Hc];
    [apply follows_end|..]; rewrite Hu in Hc.
  - by apply follows_unbuilt.
  - by apply follows_read.
  - by apply follows_read_write.
  - by apply follows_stop.
Qed.

Lemma follows_listing_length (t : Tenant) (all : list string) (evs : list request) :
  follows_listing t all evs → (length evs ≤ 2 * length all)%nat.
Proof. induction 1; simpl in *; lia. Qed.

Lemma range_follows_listing (app : string) (enabledSet : gmap string bool)
    (all m : list string) (t : Tenant) :
  ∃ evs, trace (range_allConnections app enabledSet all m t).2 = trace t ++ evs
         ∧ follows_listing t all evs.
Proof.
  revert all m t. apply (range_ind app enabledSet (λ all m t r,
    ∃ evs, trace r.2 = trace t ++ evs ∧ follows_listing t all evs)); simpl.
  - intros m t. exists []. rewrite app_nil_r. split; [done|apply follows_end].
  - intros c all m t m1 t1 r Hit _ (evs & -> & Hf).
    destruct (iteration_same_setup _ _ _ _ _ _ _ Hit) as (Hu & _).
    apply (follows_listing_setup t t1 _ _ Hu) in Hf.
    destruct (iteration_trace _ _ _ _ _ _ _ Hit)
      as [[-> Hc]|[[-> Hc]|(cur & Hr & _ & ->)]].
    + exists evs. split; [done|by apply follows_unbuilt].
    + exists (GET c :: evs). rewrite <-app_assoc. split; [done|by apply follows_read].
    + eexists (GET c :: PATCH c _ :: evs). rewrite <-app_assoc. split; [done|].
      apply follows_read_write; [by eapply read_of_None_url|done].
  - intros c all m t m1 err t1 Hit.
    inversion Hit as [| | |cur err' Hr]; subst. simpl.
    eexists [GET c; PATCH c _]. rewrite <-app_assoc. split; [done|].
    apply follows_stop. by eapply read_of_None_url.
Qed.

(** X18.  Whatever the tenant answers, the requests of a run of
    [applyConnectionState] follow the listing: for each listed connection in
    turn the run sends nothing when its request cannot be built, otherwise
    one read, alone or followed at once by one write of that same
    connection; it stops before the end of the listing only right after
    such a write.  So it never writes a connection that it has not just
    read, and sends at most two requests per listed connection. *)
Theorem X18_requests_follow_the_listing (allConnections : list string) (app : string)
    (want : list string) (t : Tenant) :
  let evs := since (length (trace t)) (applyConnectionState allConnections app want t).2 in
  follows_listing t allConnections evs
  ∧ (length evs ≤ 2 * length allConnections)%nat.
Proof.
  unfold applyConnectionState, since.
  destruct (range_follows_listing app (make_enabledSet want) allConnections [] t)
    as (evs & -> & Hf).
  rewrite drop_app_length. split; [done|]. by eapply follows_listing_length.
Qed.
